(** * bufsd: the cursor-based Serializer / Deserializer pair

    A shallow embedding of [bufsd::Deserializer] (src/deserializer.cpp,
    include/bufsd/deserializer.h) and of [bufsd::Serializer]
    (include/bufsd/serializer.h), followed by the properties the
    specification states about them.

    Conventions of the embedding.
    - An [unsigned char] is a [Z] in [0, 256); a [std::vector<unsigned char>]
      is a [list Z].
    - [size_t] and [unsigned long long] are 64 bits wide: arithmetic on them
      is written with its wrap-around ([to_size_t], [shl64]).
    - A member function is a computation over the object, [M S A]: it runs on
      the object's fields and gives back an outcome together with the fields
      as the call left them.  A C++ exception unwinds without restoring the
      object, so a [Throw] still carries the fields as they were when the
      exception was raised.
    - [operator[]] of a vector and iterator arithmetic are unchecked in C++.
      An access outside the vector is the outcome [Undefined]. *)

From Stdlib Require Import ZArith Lia Ascii HexadecimalString.
From stdpp Require Import base list strings pretty.

Local Open Scope Z_scope.

(** ** Machine integers *)

Definition to_uchar (z : Z) : Z := z mod 2 ^ 8.
Definition to_ushort (z : Z) : Z := z mod 2 ^ 16.
Definition to_uint (z : Z) : Z := z mod 2 ^ 32.
Definition to_ull (z : Z) : Z := z mod 2 ^ 64.
Definition to_size_t (z : Z) : Z := z mod 2 ^ 64.

(** [(unsigned long long)b << k].  The shift count stays below 64 wherever
    the library shifts: the reads are of 1, 2, 4 or 8 bytes. *)
Definition shl64 (b k : Z) : Z := to_ull (Z.shiftl b k).

(** ** Vectors *)

(** [v.size()] *)
Definition vector_size {A : Type} (v : list A) : Z := Z.of_nat (length v).

(** The largest size a [std::vector<unsigned char>] can have on a 64-bit
    platform ([PTRDIFF_MAX]). *)
Definition max_size : Z := 2 ^ 63 - 1.

(** [v[i]] as an rvalue: defined inside the vector only. *)
Definition vector_at (v : list Z) (i : Z) : option Z :=
  if decide (0 <= i) then v !! Z.to_nat i else None.

(** [v[i] = x]: defined inside the vector only. *)
Definition vector_store (v : list Z) (i : Z) (x : Z) : option (list Z) :=
  if decide (0 <= i < vector_size v) then Some (<[Z.to_nat i := x]> v) else None.

(** [std::vector<unsigned char>(v.begin() + first, v.begin() + first + count)]:
    defined when both iterators stay inside [v.begin(), v.end()]. *)
Definition vector_range (v : list Z) (first count : Z) : option (list Z) :=
  if decide (0 <= first /\ 0 <= count /\ first + count <= vector_size v)
  then Some (take (Z.to_nat count) (drop (Z.to_nat first) v))
  else None.

(** ** Outcomes and member functions *)

Inductive result (A : Type) : Type :=
| Ok (a : A)
| Throw (what : string)
| Undefined.
Arguments Ok {A} a.
Arguments Throw {A} what.
Arguments Undefined {A}.

Definition M (S A : Type) : Type := S -> result A * S.

Definition ret {S A : Type} (a : A) : M S A := fun s => (Ok a, s).

Definition bind {S A B : Type} (m : M S A) (f : A -> M S B) : M S B :=
  fun s =>
    match m s with
    | (Ok a, s') => f a s'
    | (Throw what, s') => (Throw what, s')
    | (Undefined, s') => (Undefined, s')
    end.

Definition throw {S A : Type} (what : string) : M S A := fun s => (Throw what, s).
Definition undefined {S A : Type} : M S A := fun s => (Undefined, s).
Definition get {S : Type} : M S S := fun s => (Ok s, s).
Definition put {S : Type} (s : S) : M S unit := fun _ => (Ok tt, s).

Global Instance M_ret {S : Type} : MRet (M S) := fun A a => ret a.
Global Instance M_bind {S : Type} : MBind (M S) := fun A B f m => bind m f.

(** ** Texts *)

(** A text without a space, as the decimal text of a number is. *)
Fixpoint spaceless (s : string) : Prop :=
  match s with
  | EmptyString => True
  | String c s' => c <> " "%char /\ spaceless s'
  end.

(** ** The Deserializer *)

Module Deserializer.

Record t : Type := mk {
  buffer : list Z;
  cursor : Z;
  buffer_size : Z;
  remaining : Z
}.

Definition with_cursor (c : Z) (d : t) : t :=
  mk (buffer d) c (buffer_size d) (remaining d).
Definition with_remaining (r : Z) (d : t) : t :=
  mk (buffer d) (cursor d) (buffer_size d) r.

Definition make_error_message (requested remaining : Z) : string :=
  "Tried to get/skip " +:+ pretty requested +:+
  " byte(s), but there's only " +:+ pretty remaining +:+ " byte(s) remaining".

(** [Deserializer(const std::vector<unsigned char> &buffer)] *)
Definition Deserializer (buffer : list Z) : t :=
  mk buffer 0 (vector_size buffer) (vector_size buffer).

Definition assert_is_available (amount_of_bytes : Z) : M t unit :=
  d ← get;
  if decide (remaining d < amount_of_bytes)
  then throw (make_error_message amount_of_bytes (remaining d))
  else ret tt.

Definition update_remaining : M t unit :=
  d ← get;
  if decide (cursor d >= buffer_size d \/ cursor d < 0)
  then put (with_remaining 0 d)
  else put (with_remaining (to_size_t (buffer_size d - cursor d)) d).

(** [this->buffer[this->cursor++]] *)
Definition next_byte : M t Z :=
  d ← get;
  match vector_at (buffer d) (cursor d) with
  | Some b => put (with_cursor (to_size_t (cursor d + 1)) d) ;; ret b
  | None => undefined
  end.

(** The loop of [get_big_endian], with [n] iterations left:
    [i] runs over [n - 1, ..., 0]. *)
Fixpoint big_endian_loop (n : nat) (value : Z) : M t Z :=
  match n with
  | O => ret value
  | S i =>
      b ← next_byte;
      big_endian_loop i (Z.lor value (shl64 b (8 * Z.of_nat i)))
  end.

Definition get_big_endian (amount_of_bytes : Z) : M t Z :=
  assert_is_available amount_of_bytes;;
  value ← big_endian_loop (Z.to_nat amount_of_bytes) 0;
  update_remaining;;
  ret value.

(** The loop of [get_little_endian], with [n] iterations left and the
    loop variable at [i]. *)
Fixpoint little_endian_loop (n : nat) (i : Z) (value : Z) : M t Z :=
  match n with
  | O => ret value
  | S n' =>
      b ← next_byte;
      little_endian_loop n' (i + 1) (Z.lor value (shl64 b (8 * i)))
  end.

Definition get_little_endian (amount_of_bytes : Z) : M t Z :=
  assert_is_available amount_of_bytes;;
  value ← little_endian_loop (Z.to_nat amount_of_bytes) 0 0;
  update_remaining;;
  ret value.

Definition get_byte : M t Z :=
  v ← get_big_endian 1; ret (to_uchar v).

Definition get_16_big_endian : M t Z :=
  v ← get_big_endian 2; ret (to_ushort v).

Definition get_32_big_endian : M t Z :=
  v ← get_big_endian 4; ret (to_uint v).

Definition get_64_big_endian : M t Z := get_big_endian 8.

Definition get_16_little_endian : M t Z :=
  v ← get_little_endian 2; ret (to_ushort v).

Definition get_32_little_endian : M t Z :=
  v ← get_little_endian 4; ret (to_uint v).

Definition get_64_little_endian : M t Z := get_little_endian 8.

Definition get_buffer (size : Z) : M t (list Z) :=
  assert_is_available size;;
  d ← get;
  match vector_range (buffer d) (cursor d) size with
  | Some bytes =>
      put (with_cursor (to_size_t (cursor d + size)) d);;
      update_remaining;;
      ret bytes
  | None => undefined
  end.

Definition get_cursor (d : t) : Z := cursor d.
Definition get_remaining (d : t) : Z := remaining d.
Definition get_buffer_size (d : t) : Z := buffer_size d.

Definition skip (amount_of_bytes : Z) : M t unit :=
  assert_is_available amount_of_bytes;;
  d ← get;
  put (with_cursor (to_size_t (cursor d + amount_of_bytes)) d);;
  update_remaining.

Definition reset_cursor : M t unit :=
  d ← get;
  put (with_cursor 0 d);;
  update_remaining.

Definition set_cursor (position : Z) : M t unit :=
  reset_cursor;;
  skip position.


(** *** Calls of the public interface *)

(** The member functions that can change the object.  The accessors
    [get_cursor], [get_remaining] and [get_buffer_size] only read it. *)
Inductive call : Type :=
| call_get_byte
| call_get_buffer (size : Z)
| call_get_16_big_endian
| call_get_32_big_endian
| call_get_64_big_endian
| call_get_16_little_endian
| call_get_32_little_endian
| call_get_64_little_endian
| call_skip (amount_of_bytes : Z)
| call_reset_cursor
| call_set_cursor (position : Z).

Inductive returned : Type :=
| returned_void
| returned_integer (value : Z)
| returned_bytes (bytes : list Z).

Definition run (c : call) : M t returned :=
  match c with
  | call_get_byte => v ← get_byte; ret (returned_integer v)
  | call_get_buffer size => l ← get_buffer size; ret (returned_bytes l)
  | call_get_16_big_endian => v ← get_16_big_endian; ret (returned_integer v)
  | call_get_32_big_endian => v ← get_32_big_endian; ret (returned_integer v)
  | call_get_64_big_endian => v ← get_64_big_endian; ret (returned_integer v)
  | call_get_16_little_endian =>
      v ← get_16_little_endian; ret (returned_integer v)
  | call_get_32_little_endian =>
      v ← get_32_little_endian; ret (returned_integer v)
  | call_get_64_little_endian =>
      v ← get_64_little_endian; ret (returned_integer v)
  | call_skip amount_of_bytes => skip amount_of_bytes;; ret returned_void
  | call_reset_cursor => reset_cursor;; ret returned_void
  | call_set_cursor position => set_cursor position;; ret returned_void
  end.

(** The [size_t] arguments of a call are in the range of [size_t]. *)
Definition well_typed (c : call) : Prop :=
  match c with
  | call_get_buffer n | call_skip n | call_set_cursor n => 0 <= n < 2 ^ 64
  | _ => True
  end.

(** The states a Deserializer over [input] goes through: the
    constructor's, and the state any call leaves behind, whether the call
    returned or threw. *)
Inductive reachable (input : list Z) : t -> Prop :=
| reachable_constructor : reachable input (Deserializer input)
| reachable_call d c r d' :
    reachable input d -> well_typed c -> run c d = (r, d') ->
    r <> Undefined -> reachable input d'.

(** The invariant of the cursor. *)
Definition invariant (d : t) : Prop :=
  0 <= cursor d <= buffer_size d /\ remaining d = buffer_size d - cursor d.

(** What never changes after construction. *)
Definition over (input : list Z) (d : t) : Prop :=
  buffer d = input /\ buffer_size d = vector_size input.

(** The value the loop of [get_big_endian] accumulates on [bytes]. *)
Fixpoint decode_big_endian (bytes : list Z) (value : Z) : Z :=
  match bytes with
  | [] => value
  | b :: bytes' =>
      decode_big_endian bytes'
        (Z.lor value (shl64 b (8 * Z.of_nat (length bytes'))))
  end.

(** The value the loop of [get_little_endian] accumulates on [bytes], the
    loop variable starting at [i]. *)
Fixpoint decode_little_endian (bytes : list Z) (i : Z) (value : Z) : Z :=
  match bytes with
  | [] => value
  | b :: bytes' =>
      decode_little_endian bytes' (i + 1) (Z.lor value (shl64 b (8 * i)))
  end.

(** A call that throws the out-of-bounds message for [requested] bytes and
    leaves the object as it was. *)
Definition refused {A : Type} (m : M t A) (requested : Z) (d : t) : Prop :=
  m d = (Throw (make_error_message requested (remaining d)), d).

(** The state after the cursor of [d] moved [n] bytes forward. *)
Definition advanced (d : t) (n : Z) : t :=
  mk (buffer d) (cursor d + n) (buffer_size d) (remaining d - n).

(** The state [reset_cursor] leaves. *)
Definition rewound (d : t) : t :=
  mk (buffer d) 0 (buffer_size d) (buffer_size d).

End Deserializer.

(** ** The Serializer *)

Module Serializer.

Inductive Endianness : Type := BIG | LITTLE.

Record Deferred_Buffer_Size : Type := mk_deferred {
  index : Z;
  number_of_bytes : Z;
  endianness : Endianness
}.

Record t : Type := mk {
  buffer : list Z;
  deferred_sizes : list Deferred_Buffer_Size
}.

Definition with_buffer (b : list Z) (s : t) : t := mk b (deferred_sizes s).
Definition with_deferred_sizes (l : list Deferred_Buffer_Size) (s : t) : t :=
  mk (buffer s) l.

(** The integer types a push can be instantiated at (the body of a push
    shifts and masks its argument, which only integer types allow), with
    their storage sizes on an LP64 platform.  The
    library itself relies on [sizeof(int) = 4]:
    [defer_buffer_size_32_big_endian] pushes the literal [0x00000000]
    through [push_32_big_endian]. *)
Inductive integer_type : Type :=
| t_bool | t_char | t_signed_char | t_unsigned_char
| t_short | t_unsigned_short
| t_int | t_unsigned_int
| t_long | t_unsigned_long
| t_long_long | t_unsigned_long_long.

Definition sizeof (T : integer_type) : Z :=
  match T with
  | t_bool | t_char | t_signed_char | t_unsigned_char => 1
  | t_short | t_unsigned_short => 2
  | t_int | t_unsigned_int => 4
  | t_long | t_unsigned_long | t_long_long | t_unsigned_long_long => 8
  end.

(** [make_error_message(unsigned char expected, unsigned char received)] *)
Definition make_error_message (expected received : Z) : string :=
  "Tried to push " +:+ pretty expected +:+
  " bits value, but the input contains " +:+ pretty (received * 8) +:+ " bits".

(** [check_size(T value, unsigned char amount_of_bytes)]; both arguments of
    [make_error_message] are converted to [unsigned char]. *)
Definition check_size (T : integer_type) (amount_of_bytes : Z) : M t unit :=
  if decide (sizeof T <> amount_of_bytes)
  then throw (make_error_message (to_uchar (amount_of_bytes * 8))
                                 (to_uchar (sizeof T)))
  else ret tt.

(** [Serializer()] *)
Definition Serializer : t := mk [] [].

(** [Serializer(size_t size, unsigned char value = 0)] *)
Definition Serializer_sized (size : Z) (value : Z) : t :=
  mk (replicate (Z.to_nat size) value) [].

(** [this->buffer.push_back(b)], [b] converted to [unsigned char] *)
Definition push_back (b : Z) : M t unit :=
  s ← get;
  put (with_buffer (buffer s ++ [to_uchar b]) s).

(** The loop of [push_little_endian], with [n] iterations left and the
    loop variable at [i]. *)
Fixpoint push_little_endian_loop (n : nat) (i : Z) (value : Z) : M t unit :=
  match n with
  | O => ret tt
  | S n' =>
      push_back (Z.land (Z.shiftr value (i * 8)) 0xff);;
      push_little_endian_loop n' (i + 1) value
  end.

Definition push_little_endian (T : integer_type) (value : Z) : M t unit :=
  push_little_endian_loop (Z.to_nat (sizeof T)) 0 value.

(** The loop of [push_big_endian], with [n] iterations left:
    [i] runs over [n - 1, ..., 0]. *)
Fixpoint push_big_endian_loop (n : nat) (value : Z) : M t unit :=
  match n with
  | O => ret tt
  | S i =>
      push_back (Z.land (Z.shiftr value (Z.of_nat i * 8)) 0xff);;
      push_big_endian_loop i value
  end.

Definition push_big_endian (T : integer_type) (value : Z) : M t unit :=
  push_big_endian_loop (Z.to_nat (sizeof T)) value.

Definition push_16_big_endian (T : integer_type) (value : Z) : M t unit :=
  check_size T 2;; push_big_endian T value.

Definition push_32_big_endian (T : integer_type) (value : Z) : M t unit :=
  check_size T 4;; push_big_endian T value.

Definition push_64_big_endian (T : integer_type) (value : Z) : M t unit :=
  check_size T 8;; push_big_endian T value.

Definition push_16_little_endian (T : integer_type) (value : Z) : M t unit :=
  check_size T 2;; push_little_endian T value.

Definition push_32_little_endian (T : integer_type) (value : Z) : M t unit :=
  check_size T 4;; push_little_endian T value.

Definition push_64_little_endian (T : integer_type) (value : Z) : M t unit :=
  check_size T 8;; push_little_endian T value.

Definition push_buffer (values : list Z) : M t unit :=
  s ← get;
  put (with_buffer (buffer s ++ values) s).

(** [push_object(object)]: [serialized] is what [object.serialize()]
    returned. *)
Definition push_object (serialized : list Z) : M t unit :=
  push_buffer serialized.

Definition push_byte (T : integer_type) (value : Z) : M t unit :=
  check_size T 1;; push_little_endian T value.

(** [this->buffer[index] = b] *)
Definition store (index : Z) (b : Z) : M t unit :=
  s ← get;
  match vector_store (buffer s) index (to_uchar b) with
  | Some buffer' => put (with_buffer buffer' s)
  | None => undefined
  end.

(** The inner loop of [insert_buffer_sizes], with [n] iterations left:
    [i] runs over [n - 1, ..., 0] while [index] is incremented.  The only
    [number_of_bytes] the library records is 4, so that the shift count of
    [buffer_size >> (i * 8)] stays below 64. *)
Fixpoint insert_size_loop (n : nat) (buffer_size index : Z) : M t unit :=
  match n with
  | O => ret tt
  | S i =>
      store index (Z.land (Z.shiftr buffer_size (Z.of_nat i * 8)) 0xff);;
      insert_size_loop i buffer_size (to_size_t (index + 1))
  end.

(** The outer loop of [insert_buffer_sizes], over the deferred sizes that
    are left. *)
Fixpoint insert_deferred (l : list Deferred_Buffer_Size) (buffer_size : Z)
  : M t unit :=
  match l with
  | [] => ret tt
  | deferred :: l' =>
      insert_size_loop (Z.to_nat (number_of_bytes deferred))
                       buffer_size (index deferred);;
      insert_deferred l' buffer_size
  end.

Definition insert_buffer_sizes : M t unit :=
  s ← get;
  insert_deferred (deferred_sizes s) (vector_size (buffer s)).

(** [get_buffer()] returns a reference to the internal buffer; the result
    here is what the reference shows when the call returns. *)
Definition get_buffer : M t (list Z) :=
  insert_buffer_sizes;;
  s ← get;
  ret (buffer s).

Definition get_buffer_size (s : t) : Z := vector_size (buffer s).

(** [print_buffer] without its output. *)
Definition print_buffer : M t unit := insert_buffer_sizes.

Definition defer_buffer_size_32_big_endian : M t unit :=
  s ← get;
  put (with_deferred_sizes
         (deferred_sizes s ++ [mk_deferred (vector_size (buffer s)) 4 BIG]) s);;
  push_32_big_endian t_int 0x00000000.

(** *** The bytes of a value *)

(** The bytes the loop of [push_big_endian] appends, [n] iterations left. *)
Fixpoint big_endian_bytes (n : nat) (value : Z) : list Z :=
  match n with
  | O => []
  | S i => Z.land (Z.shiftr value (Z.of_nat i * 8)) 0xff :: big_endian_bytes i value
  end.

(** The bytes the loop of [push_little_endian] appends, [n] iterations
    left and the loop variable at [i]. *)
Fixpoint little_endian_bytes (n : nat) (i : Z) (value : Z) : list Z :=
  match n with
  | O => []
  | S n' => Z.land (Z.shiftr value (i * 8)) 0xff :: little_endian_bytes n' (i + 1) value
  end.

(** *** The stores of [insert_buffer_sizes] *)

(** The assignments [buffer[index] = byte] the inner loop makes, in order. *)
Fixpoint size_stores (n : nat) (buffer_size index : Z) : list (Z * Z) :=
  match n with
  | O => []
  | S i =>
      (index, Z.land (Z.shiftr buffer_size (Z.of_nat i * 8)) 0xff)
      :: size_stores i buffer_size (to_size_t (index + 1))
  end.

(** The assignments the outer loop makes, in order. *)
Fixpoint deferred_stores (l : list Deferred_Buffer_Size) (buffer_size : Z)
  : list (Z * Z) :=
  match l with
  | [] => []
  | deferred :: l' =>
      size_stores (Z.to_nat (number_of_bytes deferred)) buffer_size (index deferred)
      ++ deferred_stores l' buffer_size
  end.

(** A vector after a sequence of assignments inside it. *)
Definition write_all (w : list (Z * Z)) (b : list Z) : list Z :=
  foldl (fun b '(i, x) => <[Z.to_nat i := x]> b) b w.

(** *** Calls of the public interface *)

Inductive call : Type :=
| call_push_little_endian (T : integer_type) (value : Z)
| call_push_big_endian (T : integer_type) (value : Z)
| call_push_16_big_endian (T : integer_type) (value : Z)
| call_push_32_big_endian (T : integer_type) (value : Z)
| call_push_64_big_endian (T : integer_type) (value : Z)
| call_push_16_little_endian (T : integer_type) (value : Z)
| call_push_32_little_endian (T : integer_type) (value : Z)
| call_push_64_little_endian (T : integer_type) (value : Z)
| call_push_buffer (values : list Z)
| call_push_object (serialized : list Z)
| call_push_byte (T : integer_type) (value : Z)
| call_get_buffer
| call_print_buffer
| call_get_buffer_string
| call_defer_buffer_size_32_big_endian.

Definition run (c : call) : M t unit :=
  match c with
  | call_push_little_endian T value => push_little_endian T value
  | call_push_big_endian T value => push_big_endian T value
  | call_push_16_big_endian T value => push_16_big_endian T value
  | call_push_32_big_endian T value => push_32_big_endian T value
  | call_push_64_big_endian T value => push_64_big_endian T value
  | call_push_16_little_endian T value => push_16_little_endian T value
  | call_push_32_little_endian T value => push_32_little_endian T value
  | call_push_64_little_endian T value => push_64_little_endian T value
  | call_push_buffer values => push_buffer values
  | call_push_object serialized => push_object serialized
  | call_push_byte T value => push_byte T value
  | call_get_buffer => get_buffer;; ret tt
  | call_print_buffer => print_buffer
  | call_get_buffer_string => get_buffer;; ret tt
  | call_defer_buffer_size_32_big_endian => defer_buffer_size_32_big_endian
  end.

(** The states a Serializer goes through: those of the two constructors,
    and the state any call leaves behind, whether it returned or threw.  A
    vector holds at most [max_size] elements. *)
Inductive reachable : t -> Prop :=
| reachable_default : reachable Serializer
| reachable_sized size value :
    0 <= size <= max_size -> 0 <= value < 2 ^ 8 ->
    reachable (Serializer_sized size value)
| reachable_call s c r s' :
    reachable s -> run c s = (r, s') -> r <> Undefined ->
    vector_size (buffer s') <= max_size -> reachable s'.

(** The deferred sizes [l] lie one after the other between [lo] and [hi],
    without overlap. *)
Fixpoint separated (lo : Z) (l : list Deferred_Buffer_Size) (hi : Z) : Prop :=
  match l with
  | [] => lo <= hi
  | deferred :: l' =>
      lo <= index deferred /\
      separated (index deferred + number_of_bytes deferred) l' hi
  end.

(** What [defer_buffer_size_32_big_endian] records. *)
Definition four_bytes (deferred : Deferred_Buffer_Size) : Prop :=
  number_of_bytes deferred = 4 /\ endianness deferred = BIG.

Definition invariant (s : t) : Prop :=
  vector_size (buffer s) <= max_size /\
  Forall four_bytes (deferred_sizes s) /\
  separated 0 (deferred_sizes s) (vector_size (buffer s)).

Definition with_endianness (e : Endianness) (deferred : Deferred_Buffer_Size)
  : Deferred_Buffer_Size :=
  mk_deferred (index deferred) (number_of_bytes deferred) e.

(** The message of [check_size] for a call that expects [expected_bits]
    and a value of [actual_bits]. *)
Definition size_mismatch (expected_bits actual_bits : Z) : string :=
  "Tried to push " +:+ pretty expected_bits +:+
  " bits value, but the input contains " +:+ pretty actual_bits +:+ " bits".

(** A push that checks for the width [width] (in bytes): it throws, and
    leaves the Serializer as it was, when the type has another size, and
    returns when the type has this size. *)
Definition checked_at (width : Z) (push : integer_type -> Z -> M t unit) : Prop :=
  forall T value s,
    (sizeof T <> width ->
     push T value s = (Throw (size_mismatch (width * 8) (sizeof T * 8)), s)) /\
    (sizeof T = width -> exists s', push T value s = (Ok tt, s')).

(** The buffer after [insert_buffer_sizes], when every assignment falls
    inside it. *)
Definition finalized (s : t) : list Z :=
  write_all (deferred_stores (deferred_sizes s) (vector_size (buffer s)))
            (buffer s).

(** A push appends bytes and returns, or throws and leaves the
    Serializer as it was. *)
Definition appends (m : M t unit) : Prop :=
  forall s,
    (exists bytes, m s = (Ok tt, with_buffer (buffer s ++ bytes) s)) \/
    (exists what, m s = (Throw what, s)).

(** The scenario of the example program (its [main]): the literal
    [0x56789abc] is an [int], the literal [0xdef0123456789abc] an
    [unsigned long]. *)
Definition example_scenario : M t (list Z) :=
  push_16_big_endian t_unsigned_short 0x1234;;
  push_32_little_endian t_int 0x56789abc;;
  defer_buffer_size_32_big_endian;;
  push_64_big_endian t_unsigned_long 0xdef0123456789abc;;
  get_buffer.

(** The Serializer [s] with the endianness of its deferred sizes
    rewritten by [g]. *)
Definition relabel (g : Deferred_Buffer_Size -> Endianness) (s : t) : t :=
  with_deferred_sizes
    (map (fun d => with_endianness (g d) d) (deferred_sizes s)) s.

End Serializer.

(** ** Writing, then reading *)

(** [value], of type [T], pushed by [push] on a new Serializer and read by
    [get] from a Deserializer built on the buffer the Serializer returns,
    comes back, and the Deserializer is left at the end of the buffer. *)
Definition round_trip
    (push : Serializer.integer_type -> Z -> M Serializer.t unit)
    (get : M Deserializer.t Z)
    (T : Serializer.integer_type) (value : Z) : Prop :=
  exists out s d,
    (push T value;; Serializer.get_buffer) Serializer.Serializer = (Ok out, s) /\
    get (Deserializer.Deserializer out) = (Ok value, d) /\
    Deserializer.remaining d = 0.

(** ** Bytes and the numbers they denote *)

(** A value of an [unsigned char]. *)
Definition is_byte (b : Z) : Prop := 0 <= b < 2 ^ 8.

(** The number whose digits in base 256 are [bytes], the most significant
    first. *)
Fixpoint big_endian_value (bytes : list Z) : Z :=
  match bytes with
  | [] => 0
  | b :: bytes' => b * 2 ^ (8 * Z.of_nat (length bytes')) + big_endian_value bytes'
  end.

(** The number whose digits in base 256 are [bytes], the least significant
    first. *)
Fixpoint little_endian_value (bytes : list Z) : Z :=
  match bytes with
  | [] => 0
  | b :: bytes' => b + 2 ^ 8 * little_endian_value bytes'
  end.

(** The [n] bytes of [input] that start at the cursor of [d]. *)
Definition next_bytes (input : list Z) (d : Deserializer.t) (n : Z) : list Z :=
  take (Z.to_nat n) (drop (Z.to_nat (Deserializer.cursor d)) input).

(** With [n] bytes left, [get] returns the number [value_of] gives to the
    next [n] bytes, and moves the cursor past them. *)
Definition reads_value (get : M Deserializer.t Z) (n : Z)
    (value_of : list Z -> Z) (input : list Z) (d : Deserializer.t) : Prop :=
  n <= Deserializer.remaining d ->
  get d = (Ok (value_of (next_bytes input d n)), Deserializer.advanced d n).



(** ** What a call of the Serializer leaves in place *)

(** The position [p] lies in the bytes reserved for a deferred size of [l]. *)
Definition inside_deferred (l : list Serializer.Deferred_Buffer_Size) (p : Z) : Prop :=
  Exists (fun d => Serializer.index d <= p
                   < Serializer.index d + Serializer.number_of_bytes d) l.

(** ** The hex texts of the utilities *)

Module Utils.

(** What [hex_string_to_byte_vector] gives: the bytes, or the
    [std::invalid_argument] it throws. *)
Inductive outcome (A : Type) : Type :=
| returned (a : A)
| invalid_argument (what : string).
Arguments returned {A} a.
Arguments invalid_argument {A} what.

(** [(unsigned char)c] *)
Definition code (c : ascii) : Z := Z.of_N (N_of_ascii c).

(** [std::isspace] in the "C" locale, which the library never changes:
    space, and the controls from tab to carriage return. *)
Definition isspace (c : ascii) : bool :=
  (code c =? 32) || ((9 <=? code c) && (code c <=? 13)).

(** [std::isxdigit] *)
Definition isxdigit (c : ascii) : bool :=
  ((48 <=? code c) && (code c <=? 57))
  || ((65 <=? code c) && (code c <=? 70))
  || ((97 <=? code c) && (code c <=? 102)).

(** [ss << std::hex << n] for an [int] that is not negative. *)
Definition hex (n : Z) : string :=
  HexadecimalString.NilZero.string_of_uint (N.to_hex_uint (Z.to_N n)).

(** [std::setfill(fill) << std::setw(width)] applied to the text of the
    insertion that follows. *)
Definition setw (width : nat) (fill : ascii) (text : string) : string :=
  String.string_of_list_ascii (replicate (width - String.length text) fill) +:+ text.

(** The loop of [make_buffer_string] inserts this for the byte [val]. *)
Definition byte_text (val : Z) : string := setw 2 "0" (hex val).

Definition make_buffer_string (buffer : list Z) : string :=
  foldl (fun ss val => ss +:+ byte_text val) "" buffer.

(** The value of a hex digit. *)
Definition digit_value (c : ascii) : Z :=
  if (48 <=? code c) && (code c <=? 57) then code c - 48
  else if (97 <=? code c) && (code c <=? 102) then code c - 97 + 10
  else if (65 <=? code c) && (code c <=? 70) then code c - 65 + 10
  else 0.

(** [std::stoi(text, nullptr, 16)] on a text of hex digits, which is all
    the first loop of [hex_string_to_byte_vector] lets through: the sign,
    the prefix and the leading space [std::stoi] would accept cannot occur. *)
Fixpoint stoi_16_from (text : string) (value : Z) : Z :=
  match text with
  | EmptyString => value
  | String c text' => stoi_16_from text' (value * 16 + digit_value c)
  end.

Definition stoi_16 (text : string) : Z := stoi_16_from text 0.

(** The first loop of [hex_string_to_byte_vector], over what is left of
    [hex_string]. *)
Fixpoint clean_loop (hex_string : string) (clean : string) : outcome string :=
  match hex_string with
  | EmptyString => returned clean
  | String c rest =>
      if isspace c then clean_loop rest clean
      else if negb (isxdigit c)
           then invalid_argument "invalid character in hex string"
           else clean_loop rest (clean +:+ String c "")
  end.

(** The second loop, over what is left of [clean] from the index [i] on:
    [clean.substr(i, 2)] is the next two characters, or the last one. *)
Fixpoint bytes_loop (clean : string) (bytes : list Z) : list Z :=
  match clean with
  | EmptyString => bytes
  | String c1 EmptyString => bytes ++ [to_uchar (stoi_16 (String c1 ""))]
  | String c1 (String c2 rest) =>
      bytes_loop rest (bytes ++ [to_uchar (stoi_16 (String c1 (String c2 "")))])
  end.

Definition hex_string_to_byte_vector (hex_string : string) : outcome (list Z) :=
  match clean_loop hex_string "" with
  | invalid_argument what => invalid_argument what
  | returned clean =>
      if negb (String.length clean mod 2 =? 0)%nat
      then invalid_argument "hex string must have even length"
      else returned (bytes_loop clean [])
  end.

(** *** What the statements about the texts need *)

(** Every character of [text] passes the test [P]. *)
Fixpoint all_chars (P : ascii -> bool) (text : string) : bool :=
  match text with
  | EmptyString => true
  | String c text' => P c && all_chars P text'
  end.

(** [text] without its white space. *)
Fixpoint without_spaces (text : string) : string :=
  match text with
  | EmptyString => EmptyString
  | String c text' =>
      if isspace c then without_spaces text' else String c (without_spaces text')
  end.

(** A character [hex_string_to_byte_vector] accepts. *)
Definition accepted (c : ascii) : bool := isspace c || isxdigit c.

(** One of [0123456789abcdef]. *)
Definition is_lower_hex (c : ascii) : bool :=
  ((48 <=? code c) && (code c <=? 57)) || ((97 <=? code c) && (code c <=? 102)).

(** The text of the byte [val] is two lower-case hex digits whose value
    is [val]. *)
Definition byte_text_checks (val : Z) : bool :=
  match byte_text val with
  | String c1 (String c2 EmptyString) =>
      is_lower_hex c1 && is_lower_hex c2
      && (to_uchar (stoi_16 (String c1 (String c2 ""))) =? val)
  | _ => false
  end.

(** The lower-case form of a letter, as [std::tolower] gives it. *)
Definition lower (c : ascii) : ascii :=
  if (65 <=? code c) && (code c <=? 90)
  then ascii_of_N (Z.to_N (code c + 32))
  else c.

Fixpoint lower_text (text : string) : string :=
  match text with
  | EmptyString => EmptyString
  | String c text' => String (lower c) (lower_text text')
  end.

(** Two hex digits, given by their codes, are read as a byte whose text is
    the two digits in lower case. *)
Definition digits_check (n1 n2 : Z) : bool :=
  let c1 := ascii_of_N (Z.to_N n1) in
  let c2 := ascii_of_N (Z.to_N n2) in
  implb (isxdigit c1 && isxdigit c2)
        (String.eqb (byte_text (to_uchar (stoi_16 (String c1 (String c2 "")))))
                    (String (lower c1) (String (lower c2) ""))).

End Utils.

(** ** The example program: a serializable, deserializable [Person] *)

Module Example.

(** [struct Person]: a [char] of the name is given by its byte. *)
Record Person : Type := mk_Person {
  name : list Z;
  age : Z
}.

(** [Person::serialize]; the Serializer is local to the call, and what is
    returned is a copy of its buffer. *)
Definition serialize (p : Person) : result (list Z) :=
  fst ((Serializer.push_16_big_endian Serializer.t_unsigned_short
          (to_ushort (vector_size (name p)));;
        Serializer.push_buffer (name p);;
        Serializer.push_byte Serializer.t_unsigned_char (age p);;
        Serializer.get_buffer) Serializer.Serializer).

(** [Serializable::to_string] *)
Definition to_string (p : Person) : result string :=
  match serialize p with
  | Ok buffer => Ok (Utils.make_buffer_string buffer)
  | Throw what => Throw what
  | Undefined => Undefined
  end.

(** [Person::fill_from_bytes(Deserializer &)]: the object filled, when the
    call returns. *)
Definition fill_from_bytes : M Deserializer.t Person :=
  name_length ← Deserializer.get_16_big_endian;
  name_buffer ← Deserializer.get_buffer name_length;
  age ← Deserializer.get_byte;
  ret (mk_Person name_buffer age).

(** [Deserializable<Person>::from_bytes(const std::vector<unsigned char> &)] *)
Definition from_bytes (buffer : list Z) : result Person :=
  fst (fill_from_bytes (Deserializer.Deserializer buffer)).

End Example.
(** * Properties *)

(** Unfold the plumbing of a member function. *)
Ltac member :=
  unfold mbind, M_bind, bind, mret, M_ret, ret, get, put, throw, undefined; cbn.

(** ** Machine integers and vectors *)

Lemma to_size_t_small z : 0 <= z < 2 ^ 64 -> to_size_t z = z.
Proof. intros H. unfold to_size_t. apply Z.mod_small. exact H. Qed.

Lemma max_size_lt : max_size < 2 ^ 64.
Proof. unfold max_size. lia. Qed.

Lemma vector_size_nonneg {A : Type} (v : list A) : 0 <= vector_size v.
Proof. unfold vector_size. lia. Qed.

Lemma vector_size_app {A : Type} (v w : list A) :
  vector_size (v ++ w) = vector_size v + vector_size w.
Proof. unfold vector_size. rewrite length_app. lia. Qed.

Lemma vector_at_Some v i :
  0 <= i < vector_size v -> exists b, vector_at v i = Some b.
Proof.
  intros [H0 H1]. unfold vector_at, vector_size in *.
  destruct (decide (0 <= i)) as [_|]; [|lia].
  destruct (lookup_lt_is_Some_2 v (Z.to_nat i)) as [b Hb]; [lia|].
  exists b. exact Hb.
Qed.

Lemma vector_at_drop v i b :
  vector_at v i = Some b ->
  0 <= i < vector_size v /\
  exists rest, drop (Z.to_nat i) v = b :: rest /\ drop (Z.to_nat (i + 1)) v = rest.
Proof.
  unfold vector_at, vector_size.
  destruct (decide (0 <= i)) as [H0|]; [|discriminate].
  intros Hb. split.
  - apply lookup_lt_Some in Hb. lia.
  - exists (drop (S (Z.to_nat i)) v). split.
    + apply drop_S. exact Hb.
    + f_equal. lia.
Qed.

(** ** Messages *)

Lemma spaceless_pretty_N_go x : forall s,
  spaceless s -> spaceless (pretty_N_go x s).
Proof.
  induction (N.lt_wf_0 x) as [x _ IH]; intros s Hs.
  destruct (decide (x = 0%N)) as [->|Hx]; [exact Hs|].
  rewrite pretty_N_go_step by lia.
  apply IH; [apply N.div_lt; lia|].
  split; [|exact Hs].
  unfold pretty_N_char. repeat case_match; discriminate.
Qed.

Lemma spaceless_pretty (z : Z) : spaceless (pretty z).
Proof.
  assert (Hpos : forall p : positive, spaceless (pretty p)).
  { intros p. unfold pretty, pretty_positive, pretty, pretty_N.
    destruct (decide (N.pos p = 0%N)); [discriminate|].
    apply spaceless_pretty_N_go. exact I. }
  destruct z as [|p|p]; unfold pretty, pretty_Z.
  - cbn. split; [discriminate | exact I].
  - apply Hpos.
  - cbn. split; [discriminate | apply Hpos].
Qed.

(** Two texts that agree, each a number followed by a space: the numbers
    and what follows agree. *)
Lemma spaceless_prefix p : forall p' r r',
  spaceless p -> spaceless p' ->
  p +:+ String " " r = p' +:+ String " " r' -> p = p' /\ r = r'.
Proof.
  induction p as [|c p IH]; intros [|c' p'] r r' Hp Hp' Heq; cbn in *.
  - injection Heq as ->. split; reflexivity.
  - injection Heq as <- _. destruct Hp' as [[] _]. reflexivity.
  - injection Heq as -> _. destruct Hp as [[] _]. reflexivity.
  - injection Heq as -> Heq. destruct Hp as [_ Hp], Hp' as [_ Hp'].
    destruct (IH p' r r' Hp Hp' Heq) as [-> ->]. split; reflexivity.
Qed.

(** The message of the Deserializer tells the requested and the remaining
    amounts. *)
Lemma make_error_message_inj requested remaining requested' remaining' :
  Deserializer.make_error_message requested remaining =
  Deserializer.make_error_message requested' remaining' ->
  requested = requested' /\ remaining = remaining'.
Proof.
  unfold Deserializer.make_error_message. cbn. intros Heq.
  simplify_eq.
  apply spaceless_prefix in Heq as [Hn Heq]; try apply spaceless_pretty.
  simplify_eq.
  apply spaceless_prefix in Heq as [Hr _]; try apply spaceless_pretty.
  apply (inj pretty) in Hr. subst. split; reflexivity.
Qed.

(** The message of the Serializer tells the expected and the actual widths. *)
Lemma size_mismatch_inj expected actual expected' actual' :
  Serializer.size_mismatch expected actual =
  Serializer.size_mismatch expected' actual' ->
  expected = expected' /\ actual = actual'.
Proof.
  unfold Serializer.size_mismatch. cbn. intros Heq.
  simplify_eq.
  apply spaceless_prefix in Heq as [Hn Heq]; try apply spaceless_pretty.
  simplify_eq.
  apply spaceless_prefix in Heq as [Hr _]; try apply spaceless_pretty.
  apply (inj pretty) in Hr. subst. split; reflexivity.
Qed.

Module DeserializerFacts.
Import Deserializer.

Lemma assert_is_available_throw d n :
  remaining d < n ->
  assert_is_available n d = (Throw (make_error_message n (remaining d)), d).
Proof.
  intros H. unfold assert_is_available. member.
  destruct (decide (remaining d < n)); [reflexivity | lia].
Qed.

Lemma assert_is_available_pass d n :
  n <= remaining d -> assert_is_available n d = (Ok tt, d).
Proof.
  intros H. unfold assert_is_available. member.
  destruct (decide (remaining d < n)); [lia | reflexivity].
Qed.

Lemma update_remaining_inside d :
  0 <= cursor d <= buffer_size d -> buffer_size d < 2 ^ 64 ->
  update_remaining d = (Ok tt, with_remaining (buffer_size d - cursor d) d).
Proof.
  intros Hc Hb. unfold update_remaining. member.
  destruct (decide (cursor d >= buffer_size d \/ cursor d < 0)) as [H|H].
  - replace (buffer_size d - cursor d) with 0 by lia. reflexivity.
  - rewrite to_size_t_small by lia. reflexivity.
Qed.

(** The loops read the bytes from the cursor on, and move the cursor
    past them. *)
Lemma big_endian_loop_inside n : forall value d,
  0 <= cursor d -> cursor d + Z.of_nat n <= vector_size (buffer d) ->
  vector_size (buffer d) <= max_size ->
  big_endian_loop n value d =
    (Ok (decode_big_endian (take n (drop (Z.to_nat (cursor d)) (buffer d))) value),
     with_cursor (cursor d + Z.of_nat n) d).
Proof.
  induction n as [|n IH]; intros value d H0 Hn Hmax.
  - cbn. member. destruct d; unfold with_cursor; cbn. repeat f_equal. lia.
  - cbn [big_endian_loop]. unfold next_byte. member.
    destruct (vector_at_Some (buffer d) (cursor d)) as [b Hb]; [lia|].
    rewrite Hb. cbn.
    apply vector_at_drop in Hb as [_ (rest & Hd & Hrest)].
    pose proof max_size_lt.
    rewrite to_size_t_small by lia.
    rewrite IH; cbn; [|unfold vector_size in *; try lia..].
    rewrite Hd, Hrest. cbn.
    rewrite length_take, <- Hrest, length_drop.
    unfold vector_size in Hn.
    rewrite Nat.min_l by lia.
    unfold with_cursor; cbn. do 2 f_equal. lia.
Qed.

Lemma little_endian_loop_inside n : forall i value d,
  0 <= cursor d -> cursor d + Z.of_nat n <= vector_size (buffer d) ->
  vector_size (buffer d) <= max_size ->
  little_endian_loop n i value d =
    (Ok (decode_little_endian (take n (drop (Z.to_nat (cursor d)) (buffer d))) i value),
     with_cursor (cursor d + Z.of_nat n) d).
Proof.
  induction n as [|n IH]; intros i value d H0 Hn Hmax.
  - cbn. member. destruct d; unfold with_cursor; cbn. repeat f_equal. lia.
  - cbn [little_endian_loop]. unfold next_byte. member.
    destruct (vector_at_Some (buffer d) (cursor d)) as [b Hb]; [lia|].
    rewrite Hb. cbn.
    apply vector_at_drop in Hb as [_ (rest & Hd & Hrest)].
    pose proof max_size_lt.
    rewrite to_size_t_small by lia.
    rewrite IH; cbn; [|unfold vector_size in *; lia..].
    rewrite Hd, Hrest. cbn.
    unfold with_cursor; cbn. do 2 f_equal. lia.
Qed.

(** *** A refused call *)

Section Refused.
Variables (d : t) (n : Z).
Hypothesis too_much : remaining d < n.

Lemma get_big_endian_throw :
  get_big_endian n d = (Throw (make_error_message n (remaining d)), d).
Proof.
  unfold get_big_endian. member.
  rewrite assert_is_available_throw by assumption. reflexivity.
Qed.

Lemma get_little_endian_throw :
  get_little_endian n d = (Throw (make_error_message n (remaining d)), d).
Proof.
  unfold get_little_endian. member.
  rewrite assert_is_available_throw by assumption. reflexivity.
Qed.

Lemma get_buffer_throw :
  get_buffer n d = (Throw (make_error_message n (remaining d)), d).
Proof.
  unfold get_buffer. member.
  rewrite assert_is_available_throw by assumption. reflexivity.
Qed.

Lemma skip_throw :
  skip n d = (Throw (make_error_message n (remaining d)), d).
Proof.
  unfold skip. member.
  rewrite assert_is_available_throw by assumption. reflexivity.
Qed.
End Refused.

(** *** Every call, on a state that satisfies the invariant *)

Section Inside.
Variable input : list Z.
Hypothesis input_fits : vector_size input <= max_size.
Variable d : t.
Hypothesis d_over : over input d.
Hypothesis d_invariant : invariant d.

Lemma update_remaining_advanced n :
  0 <= n <= remaining d ->
  update_remaining (with_cursor (cursor d + n) d) = (Ok tt, advanced d n).
Proof.
  intros Hn. destruct d_over as [_ Hsize]. destruct d_invariant as [Hc Hr].
  pose proof max_size_lt.
  rewrite update_remaining_inside; cbn; [|lia..].
  unfold with_remaining, advanced; cbn. f_equal. f_equal. lia.
Qed.

Lemma get_big_endian_inside n :
  0 <= n <= remaining d ->
  get_big_endian n d =
    (Ok (decode_big_endian
           (take (Z.to_nat n) (drop (Z.to_nat (cursor d)) (buffer d))) 0),
     advanced d n).
Proof.
  intros Hn. destruct d_over as [Hbuf Hsize]. destruct d_invariant as [Hc Hr].
  unfold get_big_endian. member.
  rewrite assert_is_available_pass by lia.
  rewrite big_endian_loop_inside; rewrite ?Hbuf; [|lia..].
  rewrite Z2Nat.id by lia.
  rewrite update_remaining_advanced by lia. reflexivity.
Qed.

Lemma get_little_endian_inside n :
  0 <= n <= remaining d ->
  get_little_endian n d =
    (Ok (decode_little_endian
           (take (Z.to_nat n) (drop (Z.to_nat (cursor d)) (buffer d))) 0 0),
     advanced d n).
Proof.
  intros Hn. destruct d_over as [Hbuf Hsize]. destruct d_invariant as [Hc Hr].
  unfold get_little_endian. member.
  rewrite assert_is_available_pass by lia.
  rewrite little_endian_loop_inside; rewrite ?Hbuf; [|lia..].
  rewrite Z2Nat.id by lia.
  rewrite update_remaining_advanced by lia. reflexivity.
Qed.

Lemma get_buffer_inside n :
  0 <= n <= remaining d ->
  get_buffer n d =
    (Ok (take (Z.to_nat n) (drop (Z.to_nat (cursor d)) (buffer d))),
     advanced d n).
Proof.
  intros Hn. destruct d_over as [Hbuf Hsize]. destruct d_invariant as [Hc Hr].
  unfold get_buffer. member.
  rewrite assert_is_available_pass by lia. cbn.
  unfold vector_range.
  destruct (decide (0 <= cursor d /\ 0 <= n /\
                    cursor d + n <= vector_size (buffer d))) as [_|Hout];
    [|rewrite Hbuf in Hout; lia].
  pose proof max_size_lt.
  rewrite to_size_t_small by lia.
  rewrite update_remaining_advanced by lia. reflexivity.
Qed.

Lemma skip_inside n :
  0 <= n <= remaining d -> skip n d = (Ok tt, advanced d n).
Proof.
  intros Hn. destruct d_over as [Hbuf Hsize]. destruct d_invariant as [Hc Hr].
  unfold skip. member.
  rewrite assert_is_available_pass by lia. cbn.
  pose proof max_size_lt.
  rewrite to_size_t_small by lia.
  rewrite update_remaining_advanced by lia. reflexivity.
Qed.

Lemma reset_cursor_inside : reset_cursor d = (Ok tt, rewound d).
Proof.
  destruct d_over as [Hbuf Hsize]. destruct d_invariant as [Hc Hr].
  pose proof max_size_lt.
  unfold reset_cursor. member.
  rewrite update_remaining_inside; cbn; [|lia..].
  unfold with_remaining, rewound; cbn. do 2 f_equal. lia.
Qed.

Lemma advanced_invariant n :
  0 <= n <= remaining d -> over input (advanced d n) /\ invariant (advanced d n).
Proof.
  intros Hn. destruct d_over as [Hbuf Hsize]. destruct d_invariant as [Hc Hr].
  unfold over, invariant, advanced; cbn. repeat split; try assumption; lia.
Qed.

Lemma rewound_invariant : over input (rewound d) /\ invariant (rewound d).
Proof.
  destruct d_over as [Hbuf Hsize]. destruct d_invariant as [Hc Hr].
  unfold over, invariant, rewound; cbn. repeat split; try assumption; lia.
Qed.
End Inside.

Lemma set_cursor_inside input d position :
  vector_size input <= max_size -> over input d -> invariant d ->
  0 <= position <= buffer_size d ->
  set_cursor position d =
    (Ok tt, mk (buffer d) position (buffer_size d) (buffer_size d - position)).
Proof.
  intros Hfits Hover Hinv Hp.
  destruct (rewound_invariant input d Hover Hinv) as [Hover' Hinv'].
  unfold set_cursor. member.
  rewrite (reset_cursor_inside input) by assumption.
  rewrite (skip_inside input Hfits (rewound d) Hover' Hinv') by (cbn; lia).
  reflexivity.
Qed.

Lemma set_cursor_throw input d position :
  vector_size input <= max_size -> over input d -> invariant d ->
  buffer_size d < position ->
  set_cursor position d =
    (Throw (make_error_message position (buffer_size d)), rewound d).
Proof.
  intros Hfits Hover Hinv Hp.
  unfold set_cursor. member.
  rewrite (reset_cursor_inside input) by assumption.
  rewrite skip_throw by (cbn; lia).
  reflexivity.
Qed.

(** No call is undefined on a state that satisfies the invariant, and
    every call, returning or throwing, leaves such a state. *)
Lemma call_keeps_cursor_invariant input d c r d' :
  vector_size input <= max_size -> over input d -> invariant d ->
  well_typed c -> run c d = (r, d') ->
  r <> Undefined /\ over input d' /\ invariant d'.
Proof.
  intros Hfits Hover Hinv Htyped.
  pose proof (advanced_invariant input d Hover Hinv) as Hadv.
  pose proof (rewound_invariant input d Hover Hinv) as Hrew.
  assert (Hrem : 0 <= remaining d) by (destruct Hinv; lia).
  destruct c; cbn [run well_typed] in *;
    unfold get_byte, get_16_big_endian, get_32_big_endian, get_64_big_endian,
      get_16_little_endian, get_32_little_endian, get_64_little_endian;
    member;
    lazymatch goal with
    | |- context [get_big_endian ?n d] =>
        destruct (decide (remaining d < n));
        [ rewrite get_big_endian_throw by assumption
        | rewrite (get_big_endian_inside input) by (assumption || lia) ]
    | |- context [get_little_endian ?n d] =>
        destruct (decide (remaining d < n));
        [ rewrite get_little_endian_throw by assumption
        | rewrite (get_little_endian_inside input) by (assumption || lia) ]
    | |- context [get_buffer ?n d] =>
        destruct (decide (remaining d < n));
        [ rewrite get_buffer_throw by assumption
        | rewrite (get_buffer_inside input) by (assumption || lia) ]
    | |- context [skip ?n d] =>
        destruct (decide (remaining d < n));
        [ rewrite skip_throw by assumption
        | rewrite (skip_inside input) by (assumption || lia) ]
    | |- context [reset_cursor d] =>
        rewrite (reset_cursor_inside input) by assumption
    | |- context [set_cursor ?n d] =>
        destruct (decide (buffer_size d < n));
        [ rewrite (set_cursor_throw input) by assumption
        | rewrite (set_cursor_inside input) by (assumption || lia) ]
    end;
    intros [= <- <-]; (split; [discriminate|]);
    try (split; assumption); try (apply Hadv; lia); try exact Hrew.
  destruct Hover as [Hbuf Hsize].
  unfold over, invariant; cbn. repeat split; try assumption; lia.
Qed.

Lemma reachable_inside input d :
  vector_size input <= max_size -> reachable input d ->
  over input d /\ invariant d.
Proof.
  intros Hfits Hreach. induction Hreach as [|d c r d' _ [Hover Hinv] Htyped Hrun _].
  - unfold over, invariant, Deserializer; cbn.
    pose proof (vector_size_nonneg input). repeat split; lia.
  - eapply call_keeps_cursor_invariant; eassumption.
Qed.

(** C8.  A Deserializer built over [input] and driven through any sequence
    of calls keeps [0 <= cursor <= buffer_size] and
    [remaining = buffer_size - cursor], with [buffer_size] the size of
    [input]; and every further call, whether it returns or throws, is
    defined and leaves a state where they hold again. *)
Theorem cursor_invariant input :
  vector_size input <= max_size ->
  (forall d, reachable input d ->
     0 <= cursor d <= buffer_size d /\
     remaining d = buffer_size d - cursor d /\
     buffer_size d = vector_size input) /\
  (forall d c r d', reachable input d -> well_typed c -> run c d = (r, d') ->
     r <> Undefined /\
     0 <= cursor d' <= buffer_size d' /\
     remaining d' = buffer_size d' - cursor d').
Proof.
  intros Hfits. split.
  - intros d Hreach.
    destruct (reachable_inside input d Hfits Hreach) as [[_ Hsize] [Hc Hr]].
    auto.
  - intros d c r d' Hreach Htyped Hrun.
    destruct (reachable_inside input d Hfits Hreach) as [Hover Hinv].
    destruct (call_keeps_cursor_invariant input d c r d' Hfits Hover Hinv Htyped Hrun)
      as (Hr & _ & Hc' & Hr').
    auto.
Qed.

Lemma cursor_invariant_witness :
  let d := mk [1; 2; 3] 2 3 1 in
  0 <= cursor d <= buffer_size d /\
  remaining d = buffer_size d - cursor d /\
  buffer_size d = vector_size [1; 2; 3].
Proof.
  assert (Hfits : vector_size [1; 2; 3] <= max_size) by (vm_compute; discriminate).
  apply (proj1 (cursor_invariant [1; 2; 3] Hfits)).
  apply (reachable_call _ (Deserializer [1; 2; 3]) (call_skip 2) (Ok returned_void)).
  - apply reachable_constructor.
  - cbn. lia.
  - vm_compute. reflexivity.
  - discriminate.
Defined.

(** C9.  In every state of a Deserializer, also one with nothing
    remaining, [get_buffer(0)] returns an empty vector and leaves the
    cursor and the remaining count as they were. *)
Theorem get_buffer_zero input d :
  vector_size input <= max_size -> reachable input d ->
  get_buffer 0 d = (Ok [], d).
Proof.
  intros Hfits Hreach.
  destruct (reachable_inside input d Hfits Hreach) as [Hover Hinv].
  rewrite (get_buffer_inside input) by (assumption || destruct Hinv; lia).
  unfold advanced. destruct d; cbn. rewrite Z.add_0_r, Z.sub_0_r. reflexivity.
Qed.

Lemma get_buffer_zero_witness :
  let d := mk [7] 1 1 0 in
  remaining d = 0 /\ get_buffer 0 d = (Ok [], d).
Proof.
  split; [reflexivity|].
  assert (Hfits : vector_size [7] <= max_size) by (vm_compute; discriminate).
  apply (get_buffer_zero [7] _ Hfits).
  apply (reachable_call _ (Deserializer [7]) call_get_byte (Ok (returned_integer 7))).
  - apply reachable_constructor.
  - exact I.
  - vm_compute. reflexivity.
  - discriminate.
Defined.

(** C4.  When more is requested than remains, [get_buffer(n)], [skip(n)]
    and the fixed-width reads of that many bytes throw the message built
    from the requested and the remaining amounts, and leave the cursor and
    the remaining count untouched. *)
Theorem out_of_bounds_leaves_cursor d n :
  remaining d < n ->
  refused (get_buffer n) n d /\
  refused (skip n) n d /\
  (n = 1 -> refused get_byte n d) /\
  (n = 2 -> refused get_16_big_endian n d /\ refused get_16_little_endian n d) /\
  (n = 4 -> refused get_32_big_endian n d /\ refused get_32_little_endian n d) /\
  (n = 8 -> refused get_64_big_endian n d /\ refused get_64_little_endian n d).
Proof.
  intros Hn. unfold refused, get_byte, get_16_big_endian, get_16_little_endian,
    get_32_big_endian, get_32_little_endian, get_64_big_endian,
    get_64_little_endian.
  repeat split; intros; subst; member;
    rewrite ?get_buffer_throw, ?skip_throw, ?get_big_endian_throw,
      ?get_little_endian_throw by assumption; reflexivity.
Qed.

Lemma out_of_bounds_leaves_cursor_witness :
  let d := mk [1; 2; 3] 2 3 1 in
  remaining d < 2 /\
  get_16_big_endian d =
    (Throw "Tried to get/skip 2 byte(s), but there's only 1 byte(s) remaining", d) /\
  skip 2 d =
    (Throw "Tried to get/skip 2 byte(s), but there's only 1 byte(s) remaining", d).
Proof.
  assert (H : remaining (mk [1; 2; 3] 2 3 1) < 2) by (cbn; lia).
  destruct (out_of_bounds_leaves_cursor (mk [1; 2; 3] 2 3 1) 2 H)
    as (_ & Hskip & _ & H16 & _).
  split; [exact H|]. split; [apply (H16 eq_refl) | exact Hskip].
Defined.

(** C5, as stated, fails: a [set_cursor] beyond the buffer throws after
    [reset_cursor] has run, so a cursor that was not at 0 is moved. *)
Lemma set_cursor_failure_moves_cursor :
  ~ (forall input d position,
       vector_size input <= max_size -> reachable input d ->
       buffer_size d < position ->
       exists what, set_cursor position d = (Throw what, d)).
Proof.
  intros H.
  destruct (H [1; 2; 3] (mk [1; 2; 3] 2 3 1) 5) as [what Hwhat].
  - vm_compute. discriminate.
  - apply (reachable_call _ (Deserializer [1; 2; 3]) (call_skip 2) (Ok returned_void)).
    + apply reachable_constructor.
    + cbn. lia.
    + vm_compute. reflexivity.
    + discriminate.
  - cbn. lia.
  - vm_compute in Hwhat. discriminate.
Qed.

(** C5, amended.  A [set_cursor] beyond the buffer throws the message
    built from the position and the buffer size, and leaves the cursor at
    0 with the whole buffer remaining. *)
Theorem set_cursor_out_of_bounds input d position :
  vector_size input <= max_size -> reachable input d ->
  buffer_size d < position ->
  set_cursor position d =
    (Throw (make_error_message position (buffer_size d)),
     mk (buffer d) 0 (buffer_size d) (buffer_size d)).
Proof.
  intros Hfits Hreach Hp.
  destruct (reachable_inside input d Hfits Hreach) as [Hover Hinv].
  apply (set_cursor_throw input); assumption.
Qed.

Lemma set_cursor_out_of_bounds_witness :
  set_cursor 5 (mk [1; 2; 3] 2 3 1) =
    (Throw "Tried to get/skip 5 byte(s), but there's only 3 byte(s) remaining",
     mk [1; 2; 3] 0 3 3).
Proof.
  assert (Hfits : vector_size [1; 2; 3] <= max_size) by (vm_compute; discriminate).
  apply (set_cursor_out_of_bounds [1; 2; 3] (mk [1; 2; 3] 2 3 1) 5 Hfits).
  - apply (reachable_call _ (Deserializer [1; 2; 3]) (call_skip 2) (Ok returned_void)).
    + apply reachable_constructor.
    + cbn. lia.
    + vm_compute. reflexivity.
    + discriminate.
  - cbn. lia.
Defined.
End DeserializerFacts.

(** ** Bytes of a value, and the value of bytes *)

Lemma land_0xff z : Z.land z 0xff = z mod 2 ^ 8.
Proof. change 0xff with (Z.ones 8). apply Z.land_ones. lia. Qed.

Lemma to_uchar_land z : to_uchar (Z.land z 0xff) = Z.land z 0xff.
Proof. rewrite land_0xff. unfold to_uchar. apply Z.mod_mod. lia. Qed.

(** One more byte of [v], placed above the [k] low bits of [v]. *)
Lemma lor_shl64_byte v k :
  0 <= k <= 56 ->
  Z.lor (v mod 2 ^ k) (shl64 (Z.land (Z.shiftr v k) 0xff) k) = v mod 2 ^ (k + 8).
Proof.
  intros Hk. unfold shl64, to_ull. rewrite land_0xff.
  apply Z.bits_inj'. intros n Hn.
  rewrite Z.lor_spec, !Z.testbit_mod_pow2 by lia.
  rewrite Z.shiftl_spec by lia.
  destruct (Z.ltb_spec n k) as [Hlt|Hge].
  - rewrite (Z.testbit_neg_r _ (n - k)) by lia.
    replace (n <? k + 8) with true by (symmetry; apply Z.ltb_lt; lia).
    cbn. rewrite andb_false_r, orb_false_r. reflexivity.
  - rewrite Z.testbit_mod_pow2 by lia.
    rewrite Z.shiftr_spec by lia.
    replace (n - k + k) with n by lia. cbn.
    destruct (Z.ltb_spec (n - k) 8), (Z.ltb_spec n (k + 8)), (Z.ltb_spec n 64);
      try lia; cbn; reflexivity.
Qed.

Module SerializerFacts.
Import Serializer.

Lemma length_big_endian_bytes n v : length (big_endian_bytes n v) = n.
Proof. induction n as [|n IH]; cbn; [reflexivity | rewrite IH; reflexivity]. Qed.

Lemma length_little_endian_bytes n : forall i v,
  length (little_endian_bytes n i v) = n.
Proof. induction n as [|n IH]; intros; cbn; [reflexivity | rewrite IH; reflexivity]. Qed.

(** Reading back, most significant byte first. *)
Lemma decode_big_endian_bytes n : forall v value,
  (n <= 8)%nat ->
  Deserializer.decode_big_endian (big_endian_bytes n v) value =
    Z.lor value (v mod 2 ^ (8 * Z.of_nat n)).
Proof.
  induction n as [|n IH]; intros v value Hn.
  - cbn. rewrite Z.mod_1_r, Z.lor_0_r. reflexivity.
  - cbn [big_endian_bytes Deserializer.decode_big_endian].
    rewrite length_big_endian_bytes, IH by lia.
    rewrite <- Z.lor_assoc, (Z.lor_comm (shl64 _ _)).
    rewrite (Z.mul_comm (Z.of_nat n) 8), lor_shl64_byte by lia.
    do 3 f_equal. lia.
Qed.

(** Reading back, least significant byte first. *)
Lemma decode_little_endian_bytes n : forall i v,
  0 <= i -> i + Z.of_nat n <= 8 ->
  Deserializer.decode_little_endian (little_endian_bytes n i v) i (v mod 2 ^ (8 * i)) =
    v mod 2 ^ (8 * (i + Z.of_nat n)).
Proof.
  induction n as [|n IH]; intros i v Hi Hn.
  - cbn. do 2 f_equal. lia.
  - cbn [little_endian_bytes Deserializer.decode_little_endian].
    rewrite (Z.mul_comm i 8), lor_shl64_byte by lia.
    replace (8 * i + 8) with (8 * (i + 1)) by lia.
    rewrite IH by lia. do 2 f_equal. lia.
Qed.

(** *** Pushes *)

Lemma push_big_endian_loop_appends n : forall value s,
  push_big_endian_loop n value s =
    (Ok tt, with_buffer (buffer s ++ big_endian_bytes n value) s).
Proof.
  induction n as [|n IH]; intros value s.
  - cbn. member. rewrite app_nil_r. destruct s; reflexivity.
  - cbn [push_big_endian_loop big_endian_bytes]. unfold push_back. member.
    rewrite IH, to_uchar_land. cbn. rewrite <- app_assoc. reflexivity.
Qed.

Lemma push_little_endian_loop_appends n : forall i value s,
  push_little_endian_loop n i value s =
    (Ok tt, with_buffer (buffer s ++ little_endian_bytes n i value) s).
Proof.
  induction n as [|n IH]; intros i value s.
  - cbn. member. rewrite app_nil_r. destruct s; reflexivity.
  - cbn [push_little_endian_loop little_endian_bytes]. unfold push_back. member.
    rewrite IH, to_uchar_land. cbn. rewrite <- app_assoc. reflexivity.
Qed.

Lemma push_big_endian_appends T value s :
  push_big_endian T value s =
    (Ok tt, with_buffer (buffer s ++ big_endian_bytes (Z.to_nat (sizeof T)) value) s).
Proof. apply push_big_endian_loop_appends. Qed.

Lemma push_little_endian_appends T value s :
  push_little_endian T value s =
    (Ok tt, with_buffer (buffer s ++ little_endian_bytes (Z.to_nat (sizeof T)) 0 value) s).
Proof. apply push_little_endian_loop_appends. Qed.

Lemma check_size_pass T n s : sizeof T = n -> check_size T n s = (Ok tt, s).
Proof.
  intros H. unfold check_size.
  destruct (decide (sizeof T <> n)); [contradiction | reflexivity].
Qed.

Lemma sizeof_range T : 1 <= sizeof T <= 8.
Proof. destruct T; cbn; lia. Qed.

(** The message of a size mismatch names the width the call expects and
    the width of the value, both in bits. *)
Lemma check_size_throw T n s :
  sizeof T <> n -> 0 <= n < 32 ->
  check_size T n s = (Throw (size_mismatch (n * 8) (sizeof T * 8)), s).
Proof.
  intros H Hn. unfold check_size, size_mismatch, make_error_message, to_uchar.
  destruct (decide (sizeof T <> n)); [|contradiction].
  pose proof (sizeof_range T).
  rewrite !Z.mod_small by lia. reflexivity.
Qed.

Lemma push_buffer_appends values s :
  push_buffer values s = (Ok tt, with_buffer (buffer s ++ values) s).
Proof. reflexivity. Qed.

(** C7.  A fixed-width push throws the size-mismatch message, and leaves
    the Serializer as it was, exactly when the size of the value's type
    differs from the width of the call; otherwise it returns.
    [push_buffer] returns on every input. *)
Theorem size_mismatch_iff :
  checked_at 1 push_byte /\
  checked_at 2 push_16_big_endian /\ checked_at 2 push_16_little_endian /\
  checked_at 4 push_32_big_endian /\ checked_at 4 push_32_little_endian /\
  checked_at 8 push_64_big_endian /\ checked_at 8 push_64_little_endian /\
  (forall values s,
     push_buffer values s = (Ok tt, with_buffer (buffer s ++ values) s)) /\
  push_buffer [] Serializer = (Ok tt, Serializer).
Proof.
  unfold checked_at, push_byte, push_16_big_endian, push_16_little_endian,
    push_32_big_endian, push_32_little_endian, push_64_big_endian,
    push_64_little_endian.
  repeat split; try reflexivity; try intros Hsize; member.
  all: try (rewrite check_size_throw by (assumption || lia); reflexivity).
  all: rewrite check_size_pass by assumption;
    rewrite ?push_big_endian_appends, ?push_little_endian_appends;
    eexists; reflexivity.
Qed.

Lemma size_mismatch_iff_witness :
  push_16_big_endian t_int 0x1234 Serializer =
    (Throw "Tried to push 16 bits value, but the input contains 32 bits",
     Serializer) /\
  exists s',
    push_16_big_endian t_unsigned_short 0x1234 Serializer = (Ok tt, s').
Proof.
  destruct size_mismatch_iff as (_ & H16 & _).
  split.
  - apply (H16 t_int 0x1234 Serializer). discriminate.
  - apply (H16 t_unsigned_short 0x1234 Serializer). reflexivity.
Defined.

(** *** Assignments inside the buffer *)

Lemma write_all_app w1 w2 b : write_all (w1 ++ w2) b = write_all w2 (write_all w1 b).
Proof. unfold write_all. apply foldl_app. Qed.

Lemma write_all_cons i x w b :
  write_all ((i, x) :: w) b = write_all w (<[Z.to_nat i := x]> b).
Proof. reflexivity. Qed.

Lemma length_write_all w : forall b, length (write_all w b) = length b.
Proof.
  induction w as [|[i x] w IH]; intros b; [reflexivity|].
  rewrite write_all_cons, IH. apply length_insert.
Qed.

Lemma vector_size_write_all w b : vector_size (write_all w b) = vector_size b.
Proof. unfold vector_size. rewrite length_write_all. reflexivity. Qed.

(** An assignment made before [w] does not show after [w] has been
    followed by an assignment to the same position. *)
Lemma insert_write_all_insert w i x y : forall b,
  <[i:=x]> (write_all w (<[i:=y]> b)) = <[i:=x]> (write_all w b).
Proof.
  induction w as [|[j z] w IH]; intros b.
  - apply list_insert_insert_eq.
  - rewrite !write_all_cons.
    destruct (decide (Z.to_nat j = i)) as [->|Hne].
    + rewrite list_insert_insert_eq. reflexivity.
    + rewrite list_insert_insert_ne by exact Hne. apply IH.
Qed.

(** Making the same assignments again changes nothing. *)
Lemma write_all_idempotent w : forall b,
  write_all w (write_all w b) = write_all w b.
Proof.
  induction w as [|[i x] w IH] using rev_ind; intros b; [reflexivity|].
  rewrite !write_all_app, !write_all_cons. cbn.
  rewrite insert_write_all_insert, IH. reflexivity.
Qed.

Lemma store_inside i x s :
  0 <= i < vector_size (buffer s) ->
  store i (Z.land x 0xff) s =
    (Ok tt, with_buffer (<[Z.to_nat i := Z.land x 0xff]> (buffer s)) s).
Proof.
  intros Hi. unfold store, vector_store. member.
  destruct (decide (0 <= i < vector_size (buffer s))); [|contradiction].
  rewrite to_uchar_land. reflexivity.
Qed.

Lemma insert_size_loop_writes n : forall buffer_size index s,
  Forall (fun a => 0 <= a.1 < vector_size (buffer s)) (size_stores n buffer_size index) ->
  insert_size_loop n buffer_size index s =
    (Ok tt, with_buffer (write_all (size_stores n buffer_size index) (buffer s)) s).
Proof.
  induction n as [|n IH]; intros bs idx s Hin.
  - destruct s; reflexivity.
  - cbn [insert_size_loop size_stores] in *.
    inversion Hin as [|? ? Hidx Hin']; subst. cbn in Hidx.
    member. rewrite store_inside by exact Hidx.
    rewrite IH; cbn; [reflexivity|].
    unfold vector_size in *. rewrite length_insert. exact Hin'.
Qed.

Lemma insert_deferred_writes l : forall buffer_size s,
  Forall (fun a => 0 <= a.1 < vector_size (buffer s)) (deferred_stores l buffer_size) ->
  insert_deferred l buffer_size s =
    (Ok tt, with_buffer (write_all (deferred_stores l buffer_size) (buffer s)) s).
Proof.
  induction l as [|deferred l IH]; intros bs s Hin.
  - destruct s; reflexivity.
  - cbn [insert_deferred deferred_stores] in *.
    apply Forall_app in Hin as [Hin1 Hin2].
    member. rewrite insert_size_loop_writes by exact Hin1.
    rewrite IH; cbn; [|rewrite vector_size_write_all; exact Hin2].
    rewrite write_all_app. reflexivity.
Qed.

Lemma get_buffer_finalized s :
  Forall (fun a => 0 <= a.1 < vector_size (buffer s))
         (deferred_stores (deferred_sizes s) (vector_size (buffer s))) ->
  get_buffer s = (Ok (finalized s), with_buffer (finalized s) s).
Proof.
  intros Hin. unfold get_buffer, insert_buffer_sizes. member.
  rewrite insert_deferred_writes by exact Hin. reflexivity.
Qed.

(** *** The deferred sizes of a Serializer *)

Lemma size_stores_range n : forall buffer_size index,
  0 <= index -> index + Z.of_nat n < 2 ^ 64 ->
  Forall (fun a => index <= a.1 < index + Z.of_nat n)
         (size_stores n buffer_size index).
Proof.
  induction n as [|n IH]; intros bs idx H0 Hn; cbn [size_stores].
  - constructor.
  - rewrite to_size_t_small by lia. constructor; [cbn; lia|].
    eapply Forall_impl; [apply IH; lia|]. cbn. intros a Ha. lia.
Qed.

Lemma separated_le l : forall lo hi,
  Forall four_bytes l -> separated lo l hi -> lo <= hi.
Proof.
  induction l as [|deferred l IH]; intros lo hi Hfour Hsep; cbn in Hsep.
  - exact Hsep.
  - inversion Hfour as [|? ? [Hfour1 _] Hfour']; subst.
    destruct Hsep as [Hlo Hsep]. apply IH in Hsep; [lia | assumption].
Qed.

Lemma separated_grow l : forall lo hi hi',
  hi <= hi' -> separated lo l hi -> separated lo l hi'.
Proof.
  induction l as [|deferred l IH]; intros lo hi hi' Hhi Hsep; cbn in *.
  - lia.
  - destruct Hsep as [Hlo Hsep]. split; [exact Hlo | eapply IH; eassumption].
Qed.

Lemma separated_snoc l : forall lo hi,
  Forall four_bytes l -> separated lo l hi ->
  separated lo (l ++ [mk_deferred hi 4 BIG]) (hi + 4).
Proof.
  induction l as [|deferred l IH]; intros lo hi Hfour Hsep; cbn in *.
  - split; [exact Hsep | lia].
  - inversion Hfour; subst.
    destruct Hsep as [Hlo Hsep]. split; [exact Hlo | apply IH; assumption].
Qed.

(** The assignments of separated deferred sizes fall between the bounds. *)
Lemma deferred_stores_range l buffer_size : forall lo hi,
  Forall four_bytes l -> separated lo l hi -> 0 <= lo -> hi <= max_size ->
  Forall (fun a => lo <= a.1 < hi) (deferred_stores l buffer_size).
Proof.
  pose proof max_size_lt as Hmax.
  induction l as [|deferred l IH]; intros lo hi Hfour Hsep H0 Hhi;
    cbn [deferred_stores]; [constructor|].
  inversion Hfour as [|? ? [Hfour1 _] Hfour']; subst.
  destruct Hsep as [Hlo Hsep]. rewrite Hfour1 in *.
  pose proof (separated_le _ _ _ Hfour' Hsep) as Hle.
  apply Forall_app. split.
  - eapply Forall_impl; [apply size_stores_range; lia|].
    cbn. intros a Ha. lia.
  - eapply Forall_impl; [apply (IH (index deferred + 4) hi); assumption || lia|].
    cbn. intros a Ha. lia.
Qed.

Lemma invariant_stores_inside s :
  invariant s ->
  Forall (fun a => 0 <= a.1 < vector_size (buffer s))
         (deferred_stores (deferred_sizes s) (vector_size (buffer s))).
Proof.
  intros (Hmax & Hfour & Hsep).
  apply deferred_stores_range; assumption || lia.
Qed.

Lemma invariant_with_buffer s b :
  invariant s -> vector_size (buffer s) <= vector_size b <= max_size ->
  invariant (with_buffer b s).
Proof.
  intros (Hmax & Hfour & Hsep) Hb. unfold invariant; cbn.
  repeat split; [lia | assumption |].
  eapply separated_grow; [|eassumption]. lia.
Qed.

Lemma get_buffer_invariant s :
  invariant s ->
  get_buffer s = (Ok (finalized s), with_buffer (finalized s) s) /\
  invariant (with_buffer (finalized s) s).
Proof.
  intros Hinv. split.
  - apply get_buffer_finalized, invariant_stores_inside, Hinv.
  - apply invariant_with_buffer; [exact Hinv|].
    unfold finalized. rewrite vector_size_write_all.
    destruct Hinv as [Hmax _]. lia.
Qed.

Lemma checked_push_appends T n value (push : integer_type -> Z -> M t unit) :
  appends (push T value) -> appends (check_size T n;; push T value).
Proof.
  intros Hpush s. unfold check_size. member.
  destruct (decide (sizeof T <> n)); cbn; [right; eauto | apply Hpush].
Qed.

Lemma push_big_endian_is_append T value : appends (push_big_endian T value).
Proof. intros s. left. eexists. apply push_big_endian_appends. Qed.

Lemma push_little_endian_is_append T value : appends (push_little_endian T value).
Proof. intros s. left. eexists. apply push_little_endian_appends. Qed.

Lemma push_buffer_is_append values : appends (push_buffer values).
Proof. intros s. left. eexists. apply push_buffer_appends. Qed.

Lemma appends_invariant m s r s' :
  appends m -> invariant s -> m s = (r, s') ->
  vector_size (buffer s') <= max_size ->
  r <> Undefined /\ invariant s'.
Proof.
  intros Hm Hinv Hrun Hfits.
  destruct (Hm s) as [[bytes Hs]|[what Hs]]; rewrite Hs in Hrun;
    injection Hrun as <- <-; (split; [discriminate|]); [|exact Hinv].
  apply invariant_with_buffer; [exact Hinv|].
  cbn in Hfits. rewrite vector_size_app in *.
  pose proof (vector_size_nonneg bytes). lia.
Qed.

(** Every call is defined on a Serializer that satisfies the invariant,
    and leaves one that satisfies it, as long as the buffer fits. *)
Lemma call_keeps_deferred_sizes s c r s' :
  invariant s -> run c s = (r, s') -> vector_size (buffer s') <= max_size ->
  r <> Undefined /\ invariant s'.
Proof.
  intros Hinv Hrun Hfits.
  destruct c; cbn [run] in Hrun;
    try (eapply appends_invariant; [|eassumption..];
         first [ apply push_big_endian_is_append
               | apply push_little_endian_is_append
               | apply push_buffer_is_append
               | apply checked_push_appends, push_big_endian_is_append
               | apply checked_push_appends, push_little_endian_is_append ]; fail).
  - destruct (get_buffer_invariant s Hinv) as [Hget Hinv'].
    revert Hrun. member. rewrite Hget. intros [= <- <-].
    split; [discriminate | exact Hinv'].
  - destruct (get_buffer_invariant s Hinv) as [Hget Hinv'].
    unfold print_buffer in Hrun.
    unfold get_buffer in Hget. revert Hget Hrun. member.
    destruct (insert_buffer_sizes s) as [[| |] s'']; intros [= ? ?] [= <- <-]; subst.
    split; [discriminate | exact Hinv'].
  - destruct (get_buffer_invariant s Hinv) as [Hget Hinv'].
    revert Hrun. member. rewrite Hget. intros [= <- <-].
    split; [discriminate | exact Hinv'].
  - revert Hrun. unfold defer_buffer_size_32_big_endian, push_32_big_endian.
    member. rewrite check_size_pass by reflexivity.
    rewrite push_big_endian_appends. cbn. intros [= <- <-].
    split; [discriminate|].
    destruct Hinv as (Hmax & Hfour & Hsep).
    unfold invariant; cbn in *. rewrite vector_size_app in *.
    repeat split; [exact Hfits | |].
    + apply Forall_app. split; [exact Hfour|]. repeat constructor.
    + change (vector_size [0; 0; 0; 0]) with 4.
      apply separated_snoc; assumption.
Qed.

Lemma reachable_invariant s : reachable s -> invariant s.
Proof.
  induction 1 as [|size value Hsize _|s c r s' _ IH Hrun Hr Hfits].
  - unfold invariant, Serializer, vector_size, max_size.
    cbn [buffer deferred_sizes separated length].
    repeat split; [lia | constructor | lia].
  - unfold invariant, Serializer_sized, vector_size.
    cbn [buffer deferred_sizes separated]. rewrite length_replicate.
    repeat split; [lia | constructor | lia].
  - eapply call_keeps_deferred_sizes; eassumption.
Qed.

(** *** The bytes of a size field *)

(** The inner loop overwrites the [n] bytes from [index] on with the
    big-endian bytes of the size. *)
Lemma write_size_stores n : forall buffer_size pre mid post,
  length mid = n -> vector_size pre + Z.of_nat n < 2 ^ 64 ->
  write_all (size_stores n buffer_size (vector_size pre)) (pre ++ mid ++ post) =
    pre ++ big_endian_bytes n buffer_size ++ post.
Proof.
  induction n as [|n IH]; intros bs pre mid post Hmid Hn.
  - destruct mid; [reflexivity | discriminate].
  - destruct mid as [|m mid]; [discriminate|]. injection Hmid as Hmid.
    cbn [size_stores big_endian_bytes]. rewrite write_all_cons.
    pose proof (vector_size_nonneg pre).
    rewrite to_size_t_small by lia.
    replace (Z.to_nat (vector_size pre)) with (length pre + 0)%nat
      by (unfold vector_size; lia).
    rewrite insert_app_r. cbn [app].
    change (<[0%nat:=?x]> (m :: ?l)) with (x :: l).
    replace (vector_size pre + 1) with (vector_size (pre ++ [Z.land (Z.shiftr bs (Z.of_nat n * 8)) 0xff]))
      by (rewrite vector_size_app; reflexivity).
    set (x := Z.land (Z.shiftr bs (Z.of_nat n * 8)) 0xff).
    rewrite (cons_middle x pre (mid ++ post)),
      (cons_middle x pre (big_endian_bytes n bs ++ post)), !(app_assoc pre [x]).
    apply IH.
    + exact Hmid.
    + rewrite vector_size_app. change (vector_size [_]) with 1. lia.
Qed.

Lemma write_size_field buffer_size index b :
  0 <= index -> index + 4 <= vector_size b -> vector_size b <= max_size ->
  write_all (size_stores 4 buffer_size index) b =
    take (Z.to_nat index) b ++ big_endian_bytes 4 buffer_size
    ++ drop (Z.to_nat index + 4) b.
Proof.
  intros H0 H4 Hmax. pose proof max_size_lt.
  assert (Hpre : vector_size (take (Z.to_nat index) b) = index).
  { unfold vector_size in *. rewrite length_take. lia. }
  rewrite <- (take_drop (Z.to_nat index) b) at 1.
  rewrite <- (take_drop 4 (drop (Z.to_nat index) b)).
  rewrite <- Hpre at 1.
  rewrite write_size_stores.
  - rewrite drop_drop. reflexivity.
  - unfold vector_size in *. rewrite length_take, length_drop. lia.
  - lia.
Qed.

(** Assignments at or after a position leave what is before it. *)
Lemma take_write_all w n : forall b,
  Forall (fun a => (n <= Z.to_nat a.1)%nat) w -> take n (write_all w b) = take n b.
Proof.
  induction w as [|[i x] w IH]; intros b Hw; [reflexivity|].
  inversion Hw as [|? ? Hi Hw']; subst. cbn in Hi.
  rewrite write_all_cons, IH by assumption. apply take_insert_ge. exact Hi.
Qed.

(** After all the assignments, every deferred size's four bytes are the
    big-endian bytes of the size. *)
Lemma write_all_fields l buffer_size : forall lo hi b,
  Forall four_bytes l -> separated lo l hi -> 0 <= lo ->
  hi <= vector_size b -> vector_size b <= max_size ->
  Forall (fun deferred =>
            take 4 (drop (Z.to_nat (index deferred))
                         (write_all (deferred_stores l buffer_size) b))
            = big_endian_bytes 4 buffer_size) l.
Proof.
  induction l as [|d l IH]; intros lo hi b Hfour Hsep H0 Hhi Hmax; [constructor|].
  inversion Hfour as [|? ? [Hfour1 _] Hfour']; subst.
  destruct Hsep as [Hlo Hsep]. rewrite Hfour1 in Hsep.
  pose proof (separated_le _ _ _ Hfour' Hsep) as Hle.
  cbn [deferred_stores]. rewrite Hfour1, write_all_app.
  change (Z.to_nat 4) with 4%nat.
  rewrite write_size_field by lia.
  set (b1 := take (Z.to_nat (index d)) b ++ big_endian_bytes 4 buffer_size
             ++ drop (Z.to_nat (index d) + 4) b).
  assert (Hb1 : vector_size b1 = vector_size b).
  { unfold b1. rewrite <- (write_size_field buffer_size (index d) b) by lia.
    apply vector_size_write_all. }
  constructor.
  - rewrite take_drop_commute, take_write_all.
    + rewrite <- take_drop_commute. unfold b1.
      rewrite drop_app_length'; [|rewrite length_take; unfold vector_size in *; lia].
      rewrite take_app_length'; [reflexivity | rewrite length_big_endian_bytes; reflexivity].
    + eapply Forall_impl;
        [apply (deferred_stores_range l buffer_size (index d + 4) hi); assumption || lia|].
      cbn. intros a Ha. lia.
  - apply (IH (index d + 4) hi); assumption || lia.
Qed.

(** *** Finalization *)

Lemma defer_buffer_size_32_big_endian_outcome s :
  defer_buffer_size_32_big_endian s =
    (Ok tt, mk (buffer s ++ [0; 0; 0; 0])
               (deferred_sizes s ++ [mk_deferred (vector_size (buffer s)) 4 BIG])).
Proof.
  unfold defer_buffer_size_32_big_endian, push_32_big_endian. member.
  rewrite check_size_pass by reflexivity.
  rewrite push_big_endian_appends. reflexivity.
Qed.

(** C1.  Push the bytes [A], defer a size, push the bytes [B], and get the
    buffer: it is [A], then the four bytes of its own size
    [n = |A| + 4 + |B|], most significant first, then [B]. *)
Theorem deferred_size_counts_whole_buffer (A B : list Z) :
  vector_size A + 4 + vector_size B <= max_size ->
  exists out s',
    (push_buffer A;; defer_buffer_size_32_big_endian;; push_buffer B;;
     get_buffer) Serializer = (Ok out, s') /\
    vector_size out = vector_size A + 4 + vector_size B /\
    out = A ++ [Z.land (Z.shiftr (vector_size out) 24) 0xff;
                Z.land (Z.shiftr (vector_size out) 16) 0xff;
                Z.land (Z.shiftr (vector_size out) 8) 0xff;
                Z.land (Z.shiftr (vector_size out) 0) 0xff] ++ B.
Proof.
  intros Hfits. pose proof max_size_lt.
  pose proof (vector_size_nonneg A). pose proof (vector_size_nonneg B).
  set (s1 := mk ((A ++ [0; 0; 0; 0]) ++ B) [mk_deferred (vector_size A) 4 BIG]).
  assert (Hsize : vector_size (buffer s1) = vector_size A + 4 + vector_size B).
  { cbn. rewrite !vector_size_app. reflexivity. }
  assert (Hinv : invariant s1).
  { unfold invariant. rewrite Hsize. cbn.
    repeat split; [lia | repeat constructor | lia | lia]. }
  destruct (get_buffer_invariant s1 Hinv) as [Hget _].
  assert (Hout : finalized s1 =
                 A ++ big_endian_bytes 4 (vector_size A + 4 + vector_size B) ++ B).
  { unfold finalized. rewrite Hsize.
    cbn [s1 deferred_sizes buffer deferred_stores index number_of_bytes].
    rewrite app_nil_r, <- app_assoc.
    apply write_size_stores; [reflexivity | lia]. }
  exists (finalized s1), (with_buffer (finalized s1) s1). split.
  { rewrite <- Hget. unfold s1, mbind, M_bind, bind.
    rewrite push_buffer_appends. cbv beta iota.
    rewrite defer_buffer_size_32_big_endian_outcome. cbv beta iota.
    rewrite push_buffer_appends. reflexivity. }
  assert (Hlen : vector_size (finalized s1) = vector_size A + 4 + vector_size B).
  { unfold finalized. rewrite vector_size_write_all. exact Hsize. }
  split; [exact Hlen|]. rewrite Hlen. exact Hout.
Qed.

Lemma deferred_size_counts_whole_buffer_witness :
  exists s',
    (push_buffer [1; 2; 3];; defer_buffer_size_32_big_endian;;
     push_buffer [0xff; 0xff; 0xff];; get_buffer) Serializer
    = (Ok [1; 2; 3; 0; 0; 0; 0x0a; 0xff; 0xff; 0xff], s').
Proof.
  assert (Hfits : vector_size [1; 2; 3] + 4 + vector_size [0xff; 0xff; 0xff] <= max_size)
    by (vm_compute; discriminate).
  destruct (deferred_size_counts_whole_buffer [1; 2; 3] [0xff; 0xff; 0xff] Hfits)
    as (out & s' & Hrun & Hlen & Hout).
  exists s'. rewrite Hrun. rewrite Hlen in Hout. rewrite Hout. reflexivity.
Defined.

(** Read as a big-endian number, the four bytes of a deferred size are the
    size of the buffer modulo 2^32; the size itself below 4 GiB. *)
Lemma size_field_value n :
  Deserializer.decode_big_endian
    [Z.land (Z.shiftr n 24) 0xff; Z.land (Z.shiftr n 16) 0xff;
     Z.land (Z.shiftr n 8) 0xff; Z.land (Z.shiftr n 0) 0xff] 0 = n mod 2 ^ 32.
Proof.
  change (Deserializer.decode_big_endian (big_endian_bytes 4 n) 0 = n mod 2 ^ 32).
  rewrite decode_big_endian_bytes by lia. apply Z.lor_0_l.
Qed.

(** C2, as stated, fails: the scenario of the example produces 18 bytes,
    and the deferred size holds 18 ([0x12]), not 20 ([0x14]). *)
Lemma example_size_field_is_not_0x14 :
  fst (example_scenario Serializer) <>
    Ok [0x12; 0x34; 0xbc; 0x9a; 0x78; 0x56; 0x00; 0x00; 0x00; 0x14;
        0xde; 0xf0; 0x12; 0x34; 0x56; 0x78; 0x9a; 0xbc].
Proof. vm_compute. discriminate. Qed.

(** C2, amended.  The scenario of the example produces these 18 bytes;
    the deferred size at offset 6 holds [0x12] = 18, the size of the whole
    buffer. *)
Theorem example_buffer :
  fst (example_scenario Serializer) =
    Ok [0x12; 0x34; 0xbc; 0x9a; 0x78; 0x56; 0x00; 0x00; 0x00; 0x12;
        0xde; 0xf0; 0x12; 0x34; 0x56; 0x78; 0x9a; 0xbc] /\
  vector_size [0x12; 0x34; 0xbc; 0x9a; 0x78; 0x56; 0x00; 0x00; 0x00; 0x12;
               0xde; 0xf0; 0x12; 0x34; 0x56; 0x78; 0x9a; 0xbc] = 0x12.
Proof. split; vm_compute; reflexivity. Qed.

(** A Serializer that has been used. *)
Lemma reachable_example :
  reachable (mk [1; 2; 3; 0; 0; 0; 0; 0xff] [mk_deferred 3 4 BIG]).
Proof.
  apply (reachable_call (mk [1; 2; 3; 0; 0; 0; 0] [mk_deferred 3 4 BIG])
           (call_push_byte t_unsigned_char 0xff) (Ok tt));
    [|vm_compute; reflexivity | discriminate | vm_compute; discriminate].
  apply (reachable_call (mk [1; 2; 3] [])
           call_defer_buffer_size_32_big_endian (Ok tt));
    [|vm_compute; reflexivity | discriminate | vm_compute; discriminate].
  apply (reachable_call Serializer (call_push_buffer [1; 2; 3]) (Ok tt));
    [|vm_compute; reflexivity | discriminate | vm_compute; discriminate].
  apply reachable_default.
Defined.

(** C6.  Getting the buffer twice in a row gives the same bytes twice. *)
Theorem get_buffer_twice s :
  reachable s ->
  exists out s',
    get_buffer s = (Ok out, s') /\ get_buffer s' = (Ok out, s').
Proof.
  intros Hreach. apply reachable_invariant in Hreach as Hinv.
  destruct (get_buffer_invariant s Hinv) as [Hget Hinv'].
  destruct (get_buffer_invariant _ Hinv') as [Hget' _].
  exists (finalized s), (with_buffer (finalized s) s). split; [exact Hget|].
  rewrite Hget'.
  assert (Hsame : finalized (with_buffer (finalized s) s) = finalized s).
  { unfold finalized at 1. cbn [with_buffer buffer deferred_sizes].
    unfold finalized. rewrite vector_size_write_all.
    apply write_all_idempotent. }
  rewrite Hsame. reflexivity.
Qed.

Lemma get_buffer_twice_witness :
  let s := mk [1; 2; 3; 0; 0; 0; 0; 0xff] [mk_deferred 3 4 BIG] in
  let s' := mk [1; 2; 3; 0; 0; 0; 8; 0xff] [mk_deferred 3 4 BIG] in
  get_buffer s = (Ok [1; 2; 3; 0; 0; 0; 8; 0xff], s') /\
  get_buffer s' = (Ok [1; 2; 3; 0; 0; 0; 8; 0xff], s').
Proof.
  destruct (get_buffer_twice _ reachable_example) as (out & s' & Hfirst & Hsecond).
  assert (Hout : (Ok out, s') =
                 (Ok [1; 2; 3; 0; 0; 0; 8; 0xff],
                  mk [1; 2; 3; 0; 0; 0; 8; 0xff] [mk_deferred 3 4 BIG])).
  { rewrite <- Hfirst. vm_compute. reflexivity. }
  injection Hout as -> ->. split; assumption.
Defined.

(** *** The endianness of a deferred size *)

Lemma deferred_stores_relabel g buffer_size l :
  deferred_stores (map (fun d => with_endianness (g d) d) l) buffer_size =
  deferred_stores l buffer_size.
Proof. induction l as [|d l IH]; cbn; [|rewrite IH]; reflexivity. Qed.

Lemma insert_deferred_relabel g buffer_size l s :
  insert_deferred (map (fun d => with_endianness (g d) d) l) buffer_size s =
  insert_deferred l buffer_size s.
Proof.
  revert s. induction l as [|d l IH]; intros s; [reflexivity|].
  cbn [map insert_deferred with_endianness number_of_bytes index].
  unfold mbind, M_bind, bind.
  destruct (insert_size_loop _ _ _ s) as [[| |] s1]; [apply IH | reflexivity..].
Qed.

(** The loops read the buffer only: the list of deferred sizes kept in the
    object passes through them. *)
Lemma store_with_deferred_sizes l i x s :
  store i x (with_deferred_sizes l s) =
    (fst (store i x s), with_deferred_sizes l (snd (store i x s))).
Proof.
  unfold store. member.
  destruct (vector_store (buffer s) i (to_uchar x)); reflexivity.
Qed.

Lemma insert_size_loop_with_deferred_sizes n l : forall buffer_size index s,
  insert_size_loop n buffer_size index (with_deferred_sizes l s) =
    (fst (insert_size_loop n buffer_size index s),
     with_deferred_sizes l (snd (insert_size_loop n buffer_size index s))).
Proof.
  induction n as [|n IH]; intros bs idx s; [reflexivity|].
  cbn [insert_size_loop]. unfold mbind, M_bind, bind.
  rewrite store_with_deferred_sizes.
  destruct (store idx _ s) as [[| |] s1]; cbn [fst snd];
    [apply IH | reflexivity..].
Qed.

Lemma insert_deferred_with_deferred_sizes l' l : forall buffer_size s,
  insert_deferred l' buffer_size (with_deferred_sizes l s) =
    (fst (insert_deferred l' buffer_size s),
     with_deferred_sizes l (snd (insert_deferred l' buffer_size s))).
Proof.
  induction l' as [|d l' IH]; intros bs s; [reflexivity|].
  cbn [insert_deferred]. unfold mbind, M_bind, bind.
  rewrite insert_size_loop_with_deferred_sizes.
  destruct (insert_size_loop _ _ _ s) as [[| |] s1]; cbn [fst snd];
    [apply IH | reflexivity..].
Qed.

Lemma get_buffer_relabel g s :
  fst (get_buffer (relabel g s)) = fst (get_buffer s).
Proof.
  unfold get_buffer, insert_buffer_sizes, relabel, mbind, M_bind, bind, get, ret.
  cbn [with_deferred_sizes buffer deferred_sizes].
  rewrite insert_deferred_relabel.
  rewrite (insert_deferred_with_deferred_sizes (deferred_sizes s)).
  destruct (insert_deferred _ _ s) as [[| |] s1]; reflexivity.
Qed.

(** C10.  In every state of a Serializer, each deferred size is recorded
    with four bytes and as big-endian; what [get_buffer] returns does not
    depend on the endianness recorded; and in the buffer returned the four
    bytes at each deferred size are the bytes of the buffer's size, most
    significant first. *)
Theorem deferred_sizes_are_big_endian s :
  reachable s ->
  Forall (fun d => number_of_bytes d = 4 /\ endianness d = BIG) (deferred_sizes s) /\
  (forall g, fst (get_buffer (relabel g s)) = fst (get_buffer s)) /\
  exists out s',
    get_buffer s = (Ok out, s') /\
    Forall (fun d => take 4 (drop (Z.to_nat (index d)) out)
                     = [Z.land (Z.shiftr (vector_size out) 24) 0xff;
                        Z.land (Z.shiftr (vector_size out) 16) 0xff;
                        Z.land (Z.shiftr (vector_size out) 8) 0xff;
                        Z.land (Z.shiftr (vector_size out) 0) 0xff])
           (deferred_sizes s).
Proof.
  intros Hreach. apply reachable_invariant in Hreach as Hinv.
  split; [apply Hinv|]. split; [intros g; apply get_buffer_relabel|].
  destruct (get_buffer_invariant s Hinv) as [Hget _].
  exists (finalized s), (with_buffer (finalized s) s). split; [exact Hget|].
  destruct Hinv as (Hmax & Hfour & Hsep).
  unfold finalized. rewrite vector_size_write_all.
  apply (write_all_fields _ _ 0 (vector_size (buffer s))); assumption || lia.
Qed.

Lemma deferred_sizes_are_big_endian_witness :
  let s := mk [1; 2; 3; 0; 0; 0; 0; 0xff] [mk_deferred 3 4 BIG] in
  fst (get_buffer (relabel (fun _ => LITTLE) s)) = Ok [1; 2; 3; 0; 0; 0; 8; 0xff] /\
  fst (get_buffer s) = Ok [1; 2; 3; 0; 0; 0; 8; 0xff].
Proof.
  destruct (deferred_sizes_are_big_endian _ reachable_example) as (_ & Hsame & _).
  cbv zeta. rewrite (Hsame (fun _ => LITTLE)).
  split; vm_compute; reflexivity.
Defined.
End SerializerFacts.

(** ** Writing, then reading *)

Module RoundTripFacts.
Import Serializer SerializerFacts.

Lemma constructor_inside input :
  Deserializer.over input (Deserializer.Deserializer input) /\
  Deserializer.invariant (Deserializer.Deserializer input).
Proof.
  pose proof (vector_size_nonneg input).
  unfold Deserializer.over, Deserializer.invariant, Deserializer.Deserializer; cbn.
  repeat split; lia.
Qed.

(** A Serializer that got one checked push and nothing else returns the
    pushed bytes. *)
Lemma get_buffer_after_push T n value (push : integer_type -> Z -> M t unit) bytes :
  sizeof T = n ->
  (forall s, push T value s = (Ok tt, with_buffer (buffer s ++ bytes) s)) ->
  ((check_size T n;; push T value);; get_buffer) Serializer.Serializer =
    (Ok bytes, mk bytes []).
Proof.
  intros Hsize Hpush. unfold mbind, M_bind, bind.
  rewrite check_size_pass by exact Hsize. rewrite Hpush. reflexivity.
Qed.

Lemma get_buffer_after_unchecked_push T value (push : integer_type -> Z -> M t unit) bytes :
  (forall s, push T value s = (Ok tt, with_buffer (buffer s ++ bytes) s)) ->
  (push T value;; get_buffer) Serializer.Serializer = (Ok bytes, mk bytes []).
Proof.
  intros Hpush. unfold mbind, M_bind, bind. rewrite Hpush. reflexivity.
Qed.

Section Reading.
Variables (n : Z) (value : Z).
Hypothesis n_range : 0 <= n <= 8.
Hypothesis value_range : 0 <= value < 2 ^ (8 * n).

Lemma get_big_endian_reads_back :
  Deserializer.get_big_endian n
    (Deserializer.Deserializer (big_endian_bytes (Z.to_nat n) value)) =
    (Ok value, Deserializer.mk (big_endian_bytes (Z.to_nat n) value) n n 0).
Proof.
  set (bytes := big_endian_bytes (Z.to_nat n) value).
  assert (Hsize : vector_size bytes = n).
  { unfold vector_size, bytes. rewrite length_big_endian_bytes. lia. }
  destruct (constructor_inside bytes) as [Hover Hinv].
  rewrite (DeserializerFacts.get_big_endian_inside bytes);
    [| unfold max_size; lia | assumption | assumption | cbn; lia].
  cbn [Deserializer.cursor Deserializer.buffer Deserializer.Deserializer].
  unfold Deserializer.advanced. cbn. rewrite Hsize, Z.sub_diag, Z.add_0_l.
  change (Z.to_nat 0) with 0%nat. rewrite drop_0.
  rewrite take_ge by (unfold vector_size in Hsize; lia).
  unfold bytes. rewrite decode_big_endian_bytes by lia.
  rewrite Z.lor_0_l, Z2Nat.id, Z.mod_small by lia. reflexivity.
Qed.

Lemma get_little_endian_reads_back :
  Deserializer.get_little_endian n
    (Deserializer.Deserializer (little_endian_bytes (Z.to_nat n) 0 value)) =
    (Ok value, Deserializer.mk (little_endian_bytes (Z.to_nat n) 0 value) n n 0).
Proof.
  set (bytes := little_endian_bytes (Z.to_nat n) 0 value).
  assert (Hsize : vector_size bytes = n).
  { unfold vector_size, bytes. rewrite length_little_endian_bytes. lia. }
  destruct (constructor_inside bytes) as [Hover Hinv].
  rewrite (DeserializerFacts.get_little_endian_inside bytes);
    [| unfold max_size; lia | assumption | assumption | cbn; lia].
  cbn [Deserializer.cursor Deserializer.buffer Deserializer.Deserializer].
  unfold Deserializer.advanced. cbn. rewrite Hsize, Z.sub_diag, Z.add_0_l.
  change (Z.to_nat 0) with 0%nat. rewrite drop_0.
  rewrite take_ge by (unfold vector_size in Hsize; lia).
  unfold bytes.
  pose proof (decode_little_endian_bytes (Z.to_nat n) 0 value) as Hd.
  rewrite Z.mul_0_r, Z.mod_1_r in Hd. rewrite Hd by lia.
  rewrite Z.add_0_l, Z2Nat.id, Z.mod_small by lia. reflexivity.
Qed.
End Reading.

Ltac round_trips Hsize Hvalue :=
  rewrite Hsize in Hvalue;
  unfold round_trip,
    push_byte, push_16_big_endian, push_16_little_endian, push_32_big_endian,
    push_32_little_endian, push_64_big_endian, push_64_little_endian;
  do 3 eexists;
  (split;
   [ first
       [ eapply get_buffer_after_push;
         [ exact Hsize
         | intros ?;
           first [ apply push_big_endian_appends | apply push_little_endian_appends ] ]
       | eapply get_buffer_after_unchecked_push; intros ?;
         first [ apply push_big_endian_appends | apply push_little_endian_appends ] ]
   | ]);
  rewrite Hsize;
  unfold Deserializer.get_byte, Deserializer.get_16_big_endian,
    Deserializer.get_16_little_endian, Deserializer.get_32_big_endian,
    Deserializer.get_32_little_endian, Deserializer.get_64_big_endian,
    Deserializer.get_64_little_endian, mbind, M_bind, bind, ret;
  try change (little_endian_bytes (Z.to_nat 1) 0 ?v)
    with (big_endian_bytes (Z.to_nat 1) v);
  first [ rewrite get_big_endian_reads_back by (exact Hvalue || lia)
        | rewrite get_little_endian_reads_back by (exact Hvalue || lia) ];
  unfold to_uchar, to_ushort, to_uint; rewrite ?Z.mod_small by lia;
  split; reflexivity.

(** C3.  A value pushed with a fixed width and byte order, read from the
    buffer so produced with the same width and order, comes back
    unchanged: through the pushes that check the width, and through
    [push_big_endian] and [push_little_endian] themselves. *)
Theorem fixed_width_round_trip T value :
  0 <= value < 2 ^ (8 * sizeof T) ->
  (sizeof T = 1 ->
     round_trip push_byte Deserializer.get_byte T value /\
     round_trip push_big_endian Deserializer.get_byte T value /\
     round_trip push_little_endian Deserializer.get_byte T value) /\
  (sizeof T = 2 ->
     round_trip push_16_big_endian Deserializer.get_16_big_endian T value /\
     round_trip push_16_little_endian Deserializer.get_16_little_endian T value /\
     round_trip push_big_endian Deserializer.get_16_big_endian T value /\
     round_trip push_little_endian Deserializer.get_16_little_endian T value) /\
  (sizeof T = 4 ->
     round_trip push_32_big_endian Deserializer.get_32_big_endian T value /\
     round_trip push_32_little_endian Deserializer.get_32_little_endian T value /\
     round_trip push_big_endian Deserializer.get_32_big_endian T value /\
     round_trip push_little_endian Deserializer.get_32_little_endian T value) /\
  (sizeof T = 8 ->
     round_trip push_64_big_endian Deserializer.get_64_big_endian T value /\
     round_trip push_64_little_endian Deserializer.get_64_little_endian T value /\
     round_trip push_big_endian Deserializer.get_64_big_endian T value /\
     round_trip push_little_endian Deserializer.get_64_little_endian T value).
Proof.
  intros Hvalue.
  split; [|split; [|split]]; intros Hsize; repeat split;
    round_trips Hsize Hvalue.
Qed.

Lemma fixed_width_round_trip_witness :
  round_trip push_16_big_endian Deserializer.get_16_big_endian
    t_unsigned_short 0x1234 /\
  round_trip push_16_little_endian Deserializer.get_16_little_endian
    t_unsigned_short 0x1234.
Proof.
  assert (Hvalue : 0 <= 0x1234 < 2 ^ (8 * sizeof t_unsigned_short))
    by (cbn; lia).
  destruct (fixed_width_round_trip t_unsigned_short 0x1234 Hvalue)
    as (_ & H16 & _).
  destruct (H16 eq_refl) as (Hbig & Hlittle & _).
  split; assumption.
Defined.
(** The example program reads its buffer back: the two values, the
    deferred size skipped, the third value. *)
Example example_read_back :
  fst ((v16 ← Deserializer.get_16_big_endian;
        v32 ← Deserializer.get_32_little_endian;
        Deserializer.skip 4;;
        v64 ← Deserializer.get_64_big_endian;
        ret (v16, v32, v64))
         (Deserializer.Deserializer
            [0x12; 0x34; 0xbc; 0x9a; 0x78; 0x56; 0x00; 0x00; 0x00; 0x12;
             0xde; 0xf0; 0x12; 0x34; 0x56; 0x78; 0x9a; 0xbc]))
  = Ok (0x1234, 0x56789abc, 0xdef0123456789abc).
Proof. vm_compute. reflexivity. Qed.

End RoundTripFacts.

(** * More of the Deserializer *)

Module DeserializerMore.
Import Deserializer DeserializerFacts.

Section Reachable.
Variable input : list Z.
Hypothesis input_fits : vector_size input <= max_size.
Variable d : t.
Hypothesis d_reachable : reachable input d.

(** [get_buffer(n)] returns the [n] bytes of the input that start at the
    cursor, and moves the cursor past them. *)
Theorem get_buffer_returns_input_bytes n :
  0 <= n <= remaining d ->
  get_buffer n d =
    (Ok (take (Z.to_nat n) (drop (Z.to_nat (cursor d)) input)),
     mk input (cursor d + n) (vector_size input) (remaining d - n)).
Proof.
  intros Hn.
  destruct (reachable_inside input d input_fits d_reachable) as [Hover Hinv].
  rewrite (get_buffer_inside input) by assumption.
  destruct Hover as [Hbuf Hsize]. unfold advanced. rewrite Hbuf, Hsize. reflexivity.
Qed.

(** [reset_cursor] brings a Deserializer back to the state its constructor
    gave it; so [set_cursor(position)] does, whether it returns or throws,
    what [skip(position)] does on a newly built Deserializer: where the
    cursor was before plays no part. *)
Theorem set_cursor_is_skip_from_start :
  reset_cursor d = (Ok tt, Deserializer input) /\
  forall position, set_cursor position d = skip position (Deserializer input).
Proof.
  destruct (reachable_inside input d input_fits d_reachable) as [Hover Hinv].
  assert (Hreset : reset_cursor d = (Ok tt, Deserializer input)).
  { rewrite (reset_cursor_inside input) by assumption.
    destruct Hover as [Hbuf Hsize]. unfold rewound, Deserializer.
    rewrite Hbuf, Hsize. reflexivity. }
  split; [exact Hreset|]. intros position.
  unfold set_cursor, mbind, M_bind, bind. rewrite Hreset. reflexivity.
Qed.

(** [skip(n)] is [get_buffer(n)] with the bytes dropped, whether there are
    [n] bytes left or not. *)
Theorem skip_is_get_buffer_discarded n :
  0 <= n -> skip n d = (get_buffer n;; ret tt) d.
Proof.
  intros Hn.
  destruct (reachable_inside input d input_fits d_reachable) as [Hover Hinv].
  unfold mbind, M_bind, bind.
  destruct (decide (remaining d < n)) as [Hless|Hmore].
  - rewrite skip_throw, get_buffer_throw by assumption. reflexivity.
  - rewrite (skip_inside input), (get_buffer_inside input) by (assumption || lia).
    reflexivity.
Qed.

(** Two reads in a row return the two halves of what one read of both
    lengths returns, and leave the same state. *)
Theorem get_buffer_twice_is_once n m :
  0 <= n -> 0 <= m -> n + m <= remaining d ->
  (a ← get_buffer n; b ← get_buffer m; ret (a ++ b)) d = get_buffer (n + m) d.
Proof.
  intros Hn Hm Hnm.
  destruct (reachable_inside input d input_fits d_reachable) as [Hover Hinv].
  destruct (advanced_invariant input d Hover Hinv n) as [Hover' Hinv']; [lia|].
  unfold mbind, M_bind, bind.
  rewrite (get_buffer_inside input input_fits d Hover Hinv) by lia.
  rewrite (get_buffer_inside input input_fits (advanced d n) Hover' Hinv') by (cbn; lia).
  rewrite (get_buffer_inside input input_fits d Hover Hinv) by lia.
  destruct Hinv as [Hc Hr]. unfold ret, advanced; cbn. f_equal.
  - f_equal. rewrite !Z2Nat.inj_add by lia.
    rewrite <- drop_drop, <- take_take_drop. reflexivity.
  - f_equal; lia.
Qed.
End Reachable.

(** A Deserializer that has been used. *)
Lemma reachable_after_skip : reachable [1; 2; 3] (mk [1; 2; 3] 2 3 1).
Proof.
  apply (reachable_call _ (Deserializer [1; 2; 3]) (call_skip 2) (Ok returned_void)).
  - apply reachable_constructor.
  - cbn. lia.
  - vm_compute. reflexivity.
  - discriminate.
Defined.

Lemma fits_1_2_3 : vector_size [1; 2; 3] <= max_size.
Proof. vm_compute. discriminate. Defined.

Lemma get_buffer_returns_input_bytes_witness :
  get_buffer 1 (mk [1; 2; 3] 2 3 1) = (Ok [3], mk [1; 2; 3] 3 3 0).
Proof.
  apply (get_buffer_returns_input_bytes [1; 2; 3] fits_1_2_3 _ reachable_after_skip 1).
  cbn. lia.
Defined.

Lemma set_cursor_is_skip_from_start_witness :
  set_cursor 5 (mk [1; 2; 3] 2 3 1) = skip 5 (Deserializer [1; 2; 3]) /\
  set_cursor 1 (mk [1; 2; 3] 2 3 1) = skip 1 (Deserializer [1; 2; 3]).
Proof.
  destruct (set_cursor_is_skip_from_start [1; 2; 3] fits_1_2_3 _ reachable_after_skip)
    as [_ H].
  split; apply H.
Defined.

Lemma skip_is_get_buffer_discarded_witness :
  skip 1 (mk [1; 2; 3] 2 3 1) = (get_buffer 1;; ret tt) (mk [1; 2; 3] 2 3 1).
Proof.
  apply (skip_is_get_buffer_discarded [1; 2; 3] fits_1_2_3 _ reachable_after_skip 1).
  lia.
Defined.

Lemma get_buffer_twice_is_once_witness :
  (a ← get_buffer 1; b ← get_buffer 2; ret (a ++ b)) (Deserializer [1; 2; 3])
  = get_buffer 3 (Deserializer [1; 2; 3]).
Proof.
  apply (get_buffer_twice_is_once [1; 2; 3] fits_1_2_3 _
           (reachable_constructor [1; 2; 3]) 1 2);
    [lia | lia | vm_compute; discriminate].
Defined.
End DeserializerMore.

(** * The numbers read and written *)

Module ValueFacts.
Import Serializer SerializerFacts.

Lemma big_endian_value_range bytes :
  Forall is_byte bytes ->
  0 <= big_endian_value bytes < 2 ^ (8 * Z.of_nat (length bytes)).
Proof.
  induction 1 as [|b bytes Hb _ IH]; cbn [big_endian_value length]; [cbn; lia|].
  unfold is_byte in Hb.
  replace (8 * Z.of_nat (S (length bytes))) with (8 + 8 * Z.of_nat (length bytes)) by lia.
  rewrite Z.pow_add_r by lia.
  set (p := 2 ^ (8 * Z.of_nat (length bytes))) in *.
  assert (0 < p) by (apply Z.pow_pos_nonneg; lia). nia.
Qed.

Lemma little_endian_value_range bytes :
  Forall is_byte bytes ->
  0 <= little_endian_value bytes < 2 ^ (8 * Z.of_nat (length bytes)).
Proof.
  induction 1 as [|b bytes Hb _ IH]; cbn [little_endian_value length]; [cbn; lia|].
  unfold is_byte in Hb.
  replace (8 * Z.of_nat (S (length bytes))) with (8 + 8 * Z.of_nat (length bytes)) by lia.
  rewrite Z.pow_add_r by lia.
  set (p := 2 ^ (8 * Z.of_nat (length bytes))) in *.
  assert (0 < p) by (apply Z.pow_pos_nonneg; lia). nia.
Qed.

(** Bits that do not overlap add up. *)
Lemma lor_shiftl_add b k w :
  0 <= k -> 0 <= w < 2 ^ k -> Z.lor (Z.shiftl b k) w = b * 2 ^ k + w.
Proof.
  intros Hk Hw. rewrite Z.shiftl_mul_pow2 by lia.
  rewrite <- Z.add_lor_land.
  replace (Z.land (b * 2 ^ k) w) with 0; [lia|].
  symmetry. apply Z.bits_inj'. intros n Hn.
  rewrite Z.land_spec, Z.bits_0.
  destruct (Z.ltb_spec n k) as [Hlt|Hge].
  - rewrite Z.mul_pow2_bits_low by lia. reflexivity.
  - rewrite <- (Z.mod_small w (2 ^ k)) by lia.
    rewrite Z.mod_pow2_bits_high by lia. apply andb_false_r.
Qed.

Lemma decode_big_endian_lor bytes : forall value,
  Deserializer.decode_big_endian bytes value =
  Z.lor value (Deserializer.decode_big_endian bytes 0).
Proof.
  induction bytes as [|b bytes IH]; intros value; cbn [Deserializer.decode_big_endian].
  - rewrite Z.lor_0_r. reflexivity.
  - rewrite IH, (IH (Z.lor 0 _)), Z.lor_0_l, Z.lor_assoc. reflexivity.
Qed.

Lemma shl64_byte b k :
  is_byte b -> 0 <= k <= 56 -> shl64 b k = b * 2 ^ k.
Proof.
  intros Hb Hk. unfold is_byte in Hb. unfold shl64, to_ull.
  rewrite Z.shiftl_mul_pow2 by lia.
  apply Z.mod_small.
  assert (0 < 2 ^ k) by (apply Z.pow_pos_nonneg; lia).
  assert (2 ^ k <= 2 ^ 56) by (apply Z.pow_le_mono_r; lia).
  nia.
Qed.

(** What the loop of [get_big_endian] accumulates on at most eight bytes is
    the number they denote. *)
Lemma decode_big_endian_value bytes :
  Forall is_byte bytes -> (length bytes <= 8)%nat ->
  Deserializer.decode_big_endian bytes 0 = big_endian_value bytes.
Proof.
  induction 1 as [|b bytes Hb Hbytes IH]; intros Hlen; [reflexivity|].
  cbn [Deserializer.decode_big_endian big_endian_value length] in *.
  rewrite decode_big_endian_lor, Z.lor_0_l, IH by lia.
  pose proof (big_endian_value_range bytes Hbytes).
  rewrite shl64_byte by (assumption || lia).
  rewrite <- (lor_shiftl_add b) by lia.
  rewrite Z.shiftl_mul_pow2 by lia. reflexivity.
Qed.

(** What the loop of [get_little_endian] accumulates, from the loop variable
    [i] on. *)
Lemma decode_little_endian_value bytes : forall i value,
  Forall is_byte bytes -> 0 <= i -> i + Z.of_nat (length bytes) <= 8 ->
  0 <= value < 2 ^ (8 * i) ->
  Deserializer.decode_little_endian bytes i value =
  value + 2 ^ (8 * i) * little_endian_value bytes.
Proof.
  induction bytes as [|b bytes IH]; intros i value Hbytes Hi Hlen Hvalue;
    cbn [Deserializer.decode_little_endian little_endian_value length] in *; [lia|].
  inversion Hbytes as [|? ? Hb Hbytes']; subst.
  rewrite shl64_byte by (assumption || lia).
  rewrite <- Z.shiftl_mul_pow2 by lia.
  rewrite Z.lor_comm, lor_shiftl_add by lia.
  unfold is_byte in Hb.
  assert (0 < 2 ^ (8 * i)) by (apply Z.pow_pos_nonneg; lia).
  rewrite IH; [| assumption | lia | lia |].
  - replace (8 * (i + 1)) with (8 * i + 8) by lia.
    rewrite Z.pow_add_r by lia. lia.
  - replace (8 * (i + 1)) with (8 * i + 8) by lia.
    rewrite Z.pow_add_r by lia. nia.
Qed.

(** *** From the number back to its bytes *)






(** The bytes most significant first are the bytes least significant first,
    reversed. *)
Lemma little_endian_bytes_snoc n : forall i value,
  little_endian_bytes (S n) i value =
  little_endian_bytes n i value ++ [Z.land (Z.shiftr value ((i + Z.of_nat n) * 8)) 0xff].
Proof.
  induction n as [|n IH]; intros i value.
  - cbn. rewrite Z.add_0_r. reflexivity.
  - cbn [little_endian_bytes] in *. rewrite IH. cbn [app].
    do 5 f_equal. lia.
Qed.

Lemma big_endian_bytes_reverse n value :
  big_endian_bytes n value = reverse (little_endian_bytes n 0 value).
Proof.
  induction n as [|n IH]; [reflexivity|].
  rewrite little_endian_bytes_snoc, reverse_snoc, <- IH. reflexivity.
Qed.

Lemma big_endian_bytes_are_bytes n value : Forall is_byte (big_endian_bytes n value).
Proof.
  induction n as [|n IH]; cbn [big_endian_bytes]; constructor; [|exact IH].
  unfold is_byte. rewrite land_0xff. apply Z.mod_pos_bound. lia.
Qed.

(** *** The two byte orders *)

(** [push_big_endian] appends the bytes [push_little_endian] appends, in the
    opposite order: as many as the type has, each an [unsigned char]. *)
Theorem push_big_endian_reverses_little_endian T value s :
  exists bytes,
    push_little_endian T value s = (Ok tt, with_buffer (buffer s ++ bytes) s) /\
    push_big_endian T value s = (Ok tt, with_buffer (buffer s ++ reverse bytes) s) /\
    vector_size bytes = sizeof T /\
    Forall is_byte bytes.
Proof.
  exists (little_endian_bytes (Z.to_nat (sizeof T)) 0 value).
  rewrite push_little_endian_appends, push_big_endian_appends.
  rewrite <- big_endian_bytes_reverse.
  repeat split.
  - unfold vector_size. rewrite length_little_endian_bytes.
    pose proof (sizeof_range T). lia.
  - rewrite <- (reverse_involutive (little_endian_bytes _ _ _)).
    rewrite <- big_endian_bytes_reverse.
    apply Forall_reverse, big_endian_bytes_are_bytes.
Qed.

(** *** Reading a number *)

Section Window.
Variable input : list Z.
Hypothesis input_fits : vector_size input <= max_size.
Hypothesis input_bytes : Forall is_byte input.
Variable d : Deserializer.t.
Hypothesis d_reachable : Deserializer.reachable input d.
Variable n : Z.
Hypothesis n_range : 0 <= n <= 8.
Hypothesis n_left : n <= Deserializer.remaining d.

Lemma next_bytes_are_bytes : Forall is_byte (next_bytes input d n).
Proof. apply Forall_take, Forall_drop, input_bytes. Qed.

Lemma length_next_bytes : length (next_bytes input d n) = Z.to_nat n.
Proof.
  destruct (DeserializerFacts.reachable_inside input d input_fits d_reachable)
    as [[Hbuf Hsize] [Hc Hr]].
  unfold next_bytes. rewrite length_take, length_drop.
  unfold vector_size in Hsize. lia.
Qed.

Lemma get_big_endian_value :
  Deserializer.get_big_endian n d =
    (Ok (big_endian_value (next_bytes input d n)), Deserializer.advanced d n).
Proof.
  destruct (DeserializerFacts.reachable_inside input d input_fits d_reachable)
    as [Hover Hinv].
  rewrite (DeserializerFacts.get_big_endian_inside input) by (assumption || lia).
  destruct Hover as [-> _]. fold (next_bytes input d n).
  rewrite decode_big_endian_value;
    [reflexivity | apply next_bytes_are_bytes | rewrite length_next_bytes; lia].
Qed.

Lemma get_little_endian_value :
  Deserializer.get_little_endian n d =
    (Ok (little_endian_value (next_bytes input d n)), Deserializer.advanced d n).
Proof.
  destruct (DeserializerFacts.reachable_inside input d input_fits d_reachable)
    as [Hover Hinv].
  rewrite (DeserializerFacts.get_little_endian_inside input) by (assumption || lia).
  destruct Hover as [-> _]. fold (next_bytes input d n).
  rewrite decode_little_endian_value;
    [ rewrite Z.mul_0_r; cbn; f_equal; f_equal; lia
    | apply next_bytes_are_bytes | lia | rewrite length_next_bytes; lia | cbn; lia ].
Qed.

Lemma big_endian_value_next_bytes :
  0 <= big_endian_value (next_bytes input d n) < 2 ^ (8 * n).
Proof.
  pose proof (big_endian_value_range _ next_bytes_are_bytes) as H.
  rewrite length_next_bytes, Z2Nat.id in H by lia. exact H.
Qed.

Lemma little_endian_value_next_bytes :
  0 <= little_endian_value (next_bytes input d n) < 2 ^ (8 * n).
Proof.
  pose proof (little_endian_value_range _ next_bytes_are_bytes) as H.
  rewrite length_next_bytes, Z2Nat.id in H by lia. exact H.
Qed.
End Window.

Ltac fixed_width_read input Hfits Hbytes Hreach Hleft :=
  unfold Deserializer.get_byte, Deserializer.get_16_big_endian,
    Deserializer.get_16_little_endian, Deserializer.get_32_big_endian,
    Deserializer.get_32_little_endian, Deserializer.get_64_big_endian,
    Deserializer.get_64_little_endian, mbind, M_bind, bind, ret;
  lazymatch type of Hleft with
  | ?n <= _ =>
      first
        [ rewrite (get_big_endian_value input Hfits Hbytes _ Hreach n)
            by (exact Hleft || lia);
          pose proof (big_endian_value_next_bytes input Hfits Hbytes _ Hreach n
                        ltac:(lia) Hleft)
        | rewrite (get_little_endian_value input Hfits Hbytes _ Hreach n)
            by (exact Hleft || lia);
          pose proof (little_endian_value_next_bytes input Hfits Hbytes _ Hreach n
                        ltac:(lia) Hleft) ]
  end;
  unfold to_uchar, to_ushort, to_uint; rewrite ?Z.mod_small by lia.

(** A fixed-width read returns the number its bytes denote in base 256, the
    first byte the most significant for the big-endian reads and the least
    significant for the little-endian ones. *)
Theorem fixed_width_reads_are_positional input d :
  vector_size input <= max_size -> Forall is_byte input ->
  Deserializer.reachable input d ->
  reads_value Deserializer.get_byte 1 big_endian_value input d /\
  reads_value Deserializer.get_16_big_endian 2 big_endian_value input d /\
  reads_value Deserializer.get_32_big_endian 4 big_endian_value input d /\
  reads_value Deserializer.get_64_big_endian 8 big_endian_value input d /\
  reads_value Deserializer.get_16_little_endian 2 little_endian_value input d /\
  reads_value Deserializer.get_32_little_endian 4 little_endian_value input d /\
  reads_value Deserializer.get_64_little_endian 8 little_endian_value input d.
Proof.
  intros Hfits Hbytes Hreach.
  repeat apply conj; intros Hleft;
    fixed_width_read input Hfits Hbytes Hreach Hleft; reflexivity.
Qed.


(** *** Values of signed types *)

Section Modulo.
Variables (n : Z) (value : Z).
Hypothesis n_range : 0 <= n <= 8.


End Modulo.




Lemma bytes_1_2_3 : Forall is_byte [1; 2; 3].
Proof. repeat constructor; unfold is_byte; lia. Defined.

Lemma fixed_width_reads_are_positional_witness :
  Deserializer.get_16_big_endian (Deserializer.Deserializer [1; 2; 3]) =
    (Ok 0x0102, Deserializer.mk [1; 2; 3] 2 3 1) /\
  Deserializer.get_16_little_endian (Deserializer.Deserializer [1; 2; 3]) =
    (Ok 0x0201, Deserializer.mk [1; 2; 3] 2 3 1).
Proof.
  destruct (fixed_width_reads_are_positional [1; 2; 3] _
              DeserializerMore.fits_1_2_3 bytes_1_2_3
              (Deserializer.reachable_constructor [1; 2; 3]))
    as (_ & Hbig & _ & _ & Hlittle & _).
  split; [apply Hbig | apply Hlittle]; vm_compute; discriminate.
Defined.

End ValueFacts.

(** * More of the Serializer *)

Module SerializerMore.
Import Serializer SerializerFacts.

(** A position no assignment names keeps its byte. *)
Lemma write_all_outside w n : forall b,
  Forall (fun a => Z.to_nat a.1 <> n) w -> write_all w b !! n = b !! n.
Proof.
  induction w as [|[i x] w IH]; intros b Hw; [reflexivity|].
  inversion Hw as [|? ? Hi Hw']; subst. cbn in Hi.
  rewrite write_all_cons, IH by assumption. apply list_lookup_insert_ne. exact Hi.
Qed.

(** The assignments of [insert_buffer_sizes] fall in the bytes reserved for
    the deferred sizes. *)
Lemma deferred_stores_inside l buffer_size : forall lo hi,
  Forall four_bytes l -> separated lo l hi -> 0 <= lo -> hi <= max_size ->
  Forall (fun a => inside_deferred l a.1) (deferred_stores l buffer_size).
Proof.
  pose proof max_size_lt as Hmax.
  induction l as [|d l IH]; intros lo hi Hfour Hsep H0 Hhi;
    cbn [deferred_stores]; [constructor|].
  inversion Hfour as [|? ? [Hfour1 _] Hfour']; subst.
  destruct Hsep as [Hlo Hsep]. rewrite Hfour1 in *.
  pose proof (separated_le _ _ _ Hfour' Hsep) as Hle.
  apply Forall_app. split.
  - eapply Forall_impl; [apply size_stores_range; lia|].
    cbn. intros a Ha. apply Exists_cons_hd. rewrite Hfour1. lia.
  - eapply Forall_impl; [apply (IH (index d + 4) hi); assumption || lia|].
    cbn. intros a Ha. apply Exists_cons_tl. exact Ha.
Qed.

(** What a call does to a Serializer that satisfies the invariant: it
    throws and leaves it, or appends bytes, or assigns the deferred sizes, or
    records a deferred size and appends its four bytes. *)
Lemma call_outcome s c r s' :
  invariant s -> run c s = (r, s') ->
  s' = s \/
  (exists bytes, s' = with_buffer (buffer s ++ bytes) s) \/
  s' = with_buffer (finalized s) s \/
  s' = mk (buffer s ++ [0; 0; 0; 0])
          (deferred_sizes s ++ [mk_deferred (vector_size (buffer s)) 4 BIG]).
Proof.
  intros Hinv Hrun.
  assert (Happ : forall m, appends m -> m s = (r, s') ->
                 s' = s \/ exists bytes, s' = with_buffer (buffer s ++ bytes) s).
  { intros m Hm Hms. destruct (Hm s) as [[bytes Hs]|[what Hs]];
      rewrite Hs in Hms; injection Hms as <- <-; eauto. }
  destruct (get_buffer_invariant s Hinv) as [Hget _].
  destruct c; cbn [run] in Hrun; unfold push_object in Hrun;
    try (apply Happ in Hrun;
         [ destruct Hrun as [->|Hbytes]; [left; reflexivity | right; left; exact Hbytes]
         | first
             [ apply push_big_endian_is_append
             | apply push_little_endian_is_append
             | apply push_buffer_is_append
             | apply checked_push_appends, push_big_endian_is_append
             | apply checked_push_appends, push_little_endian_is_append ] ]; fail).
  - revert Hrun. unfold mbind, M_bind, bind. rewrite Hget.
    intros [= <- <-]. right; right; left. reflexivity.
  - unfold print_buffer in Hrun. unfold get_buffer in Hget.
    revert Hget Hrun. unfold mbind, M_bind, bind, get, ret.
    destruct (insert_buffer_sizes s) as [[| |] s'']; intros [= ? ?] [= <- <-]; subst.
    right; right; left. reflexivity.
  - revert Hrun. unfold mbind, M_bind, bind. rewrite Hget.
    intros [= <- <-]. right; right; left. reflexivity.
  - rewrite defer_buffer_size_32_big_endian_outcome in Hrun.
    injection Hrun as <- <-. right; right; right. reflexivity.
Qed.

(** No call shrinks the buffer, forgets a deferred size, or changes a byte
    that is already in the buffer and is not one of the four bytes of a
    deferred size. *)
Theorem calls_leave_pushed_bytes s c r s' :
  reachable s -> run c s = (r, s') ->
  vector_size (buffer s) <= vector_size (buffer s') /\
  deferred_sizes s `prefix_of` deferred_sizes s' /\
  forall p : nat,
    (p < length (buffer s))%nat ->
    ~ inside_deferred (deferred_sizes s) (Z.of_nat p) ->
    buffer s' !! p = buffer s !! p.
Proof.
  intros Hreach Hrun. apply reachable_invariant in Hreach as Hinv.
  destruct (call_outcome s c r s' Hinv Hrun)
    as [->|[[bytes ->]|[->| ->]]]; cbn [buffer deferred_sizes with_buffer].
  - repeat split; [lia | reflexivity].
  - rewrite vector_size_app. pose proof (vector_size_nonneg bytes).
    repeat split; [lia | reflexivity |].
    intros p Hp _. apply lookup_app_l. exact Hp.
  - unfold finalized. rewrite vector_size_write_all.
    repeat split; [lia | reflexivity |].
    intros p Hp Hout. apply write_all_outside.
    destruct Hinv as (Hmax & Hfour & Hsep).
    pose proof (deferred_stores_inside (deferred_sizes s) (vector_size (buffer s))
                  0 (vector_size (buffer s)) Hfour Hsep ltac:(lia) Hmax) as Hinside.
    pose proof (deferred_stores_range (deferred_sizes s) (vector_size (buffer s))
                  0 (vector_size (buffer s)) Hfour Hsep ltac:(lia) Hmax) as Hrange.
    rewrite Forall_forall in Hinside, Hrange. apply Forall_forall.
    intros a Ha Heq. apply Hout.
    specialize (Hinside a Ha). specialize (Hrange a Ha). cbn in Hrange.
    replace (Z.of_nat p) with a.1 by lia. exact Hinside.
  - rewrite vector_size_app. change (vector_size [0; 0; 0; 0]) with 4.
    repeat split; [lia | apply prefix_app_r; reflexivity |].
    intros p Hp _. apply lookup_app_l. exact Hp.
Qed.

Lemma calls_leave_pushed_bytes_witness :
  let s := mk [1; 2; 3; 0; 0; 0; 0; 0xff] [mk_deferred 3 4 BIG] in
  let s' := mk [1; 2; 3; 0; 0; 0; 8; 0xff] [mk_deferred 3 4 BIG] in
  run call_get_buffer s = (Ok tt, s') /\
  buffer s' !! 7%nat = buffer s !! 7%nat.
Proof.
  assert (Hrun : run call_get_buffer
                   (mk [1; 2; 3; 0; 0; 0; 0; 0xff] [mk_deferred 3 4 BIG]) =
                 (Ok tt, mk [1; 2; 3; 0; 0; 0; 8; 0xff] [mk_deferred 3 4 BIG]))
    by (vm_compute; reflexivity).
  split; [exact Hrun|].
  destruct (calls_leave_pushed_bytes _ _ _ _ reachable_example Hrun) as (_ & _ & H).
  apply H; [cbn; lia|].
  intros Hin. apply Exists_cons in Hin as [Hin|Hin]; [cbn in Hin; lia|].
  inversion Hin.
Defined.
End SerializerMore.

(** * The hex texts *)

Module UtilsFacts.
Import Utils.

(** ** Texts *)

Lemma append_cons c s1 s2 : String c s1 +:+ s2 = String c (s1 +:+ s2).
Proof. reflexivity. Qed.

Lemma append_nil_r s : s +:+ "" = s.
Proof.
  induction s as [|c s IH]; [reflexivity|]. rewrite append_cons, IH. reflexivity.
Qed.

Lemma append_assoc s1 s2 s3 : (s1 +:+ s2) +:+ s3 = s1 +:+ s2 +:+ s3.
Proof.
  induction s1 as [|c s1 IH]; [reflexivity|]. rewrite !append_cons, IH. reflexivity.
Qed.

Lemma length_append s1 s2 :
  String.length (s1 +:+ s2) = (String.length s1 + String.length s2)%nat.
Proof.
  induction s1 as [|c s1 IH]; [reflexivity|]. rewrite append_cons. cbn.
  rewrite IH. reflexivity.
Qed.

Lemma all_chars_append P s1 s2 :
  all_chars P (s1 +:+ s2) = all_chars P s1 && all_chars P s2.
Proof.
  induction s1 as [|c s1 IH]; [reflexivity|]. rewrite append_cons. cbn.
  rewrite IH, andb_assoc. reflexivity.
Qed.

Lemma without_spaces_append s1 s2 :
  without_spaces (s1 +:+ s2) = without_spaces s1 +:+ without_spaces s2.
Proof.
  induction s1 as [|c s1 IH]; [reflexivity|]. rewrite append_cons. cbn.
  destruct (isspace c); rewrite ?append_cons, IH; reflexivity.
Qed.

(** Texts two characters at a time. *)
Lemma string_pair_ind (P : string -> Prop) :
  P "" -> (forall c, P (String c "")) ->
  (forall c1 c2 rest, P rest -> P (String c1 (String c2 rest))) ->
  forall s, P s.
Proof.
  intros H0 H1 H2 s.
  assert (H : P s /\ forall c, P (String c s)); [|apply H].
  induction s as [|c s [IH1 IH2]]; split; auto.
Qed.

(** ** Characters *)

Lemma is_lower_hex_accepted c :
  is_lower_hex c = true -> isspace c = false /\ isxdigit c = true.
Proof.
  unfold is_lower_hex, isspace, isxdigit. generalize (code c). intros n Hn.
  split; lia.
Qed.

(** ** The text of one byte *)

Lemma byte_text_checked val : is_byte val -> byte_text_checks val = true.
Proof.
  intros Hval.
  assert (Hall : forallb byte_text_checks (seqZ 0 256) = true)
    by (vm_compute; reflexivity).
  rewrite forallb_forall in Hall. apply Hall.
  apply list_elem_of_In, elem_of_seqZ. unfold is_byte in Hval. lia.
Qed.

Lemma byte_text_digits val :
  is_byte val ->
  exists c1 c2,
    byte_text val = String c1 (String c2 "") /\
    is_lower_hex c1 = true /\ is_lower_hex c2 = true /\
    to_uchar (stoi_16 (String c1 (String c2 ""))) = val.
Proof.
  intros Hval. apply byte_text_checked in Hval. unfold byte_text_checks in Hval.
  destruct (byte_text val) as [|c1 [|c2 [|? ?]]]; try discriminate.
  apply andb_prop in Hval as [Hval H3]. apply andb_prop in Hval as [H1 H2].
  exists c1, c2. repeat split; try assumption. lia.
Qed.

(** ** The two loops of [hex_string_to_byte_vector] *)

Lemma clean_loop_outcome hex_string : forall clean,
  clean_loop hex_string clean =
    if all_chars accepted hex_string
    then returned (clean +:+ without_spaces hex_string)
    else invalid_argument "invalid character in hex string".
Proof.
  induction hex_string as [|c rest IH]; intros clean;
    cbn [clean_loop all_chars without_spaces].
  - rewrite append_nil_r. reflexivity.
  - unfold accepted at 1. destruct (isspace c); cbn [orb andb negb].
    + apply IH.
    + destruct (isxdigit c); cbn [negb andb]; [|reflexivity].
      rewrite IH, append_assoc. reflexivity.
Qed.

Lemma bytes_loop_appends clean : forall bytes,
  bytes_loop clean bytes = bytes ++ bytes_loop clean [].
Proof.
  induction clean as [|c|c1 c2 rest IH] using string_pair_ind; intros bytes;
    cbn [bytes_loop].
  - rewrite app_nil_r. reflexivity.
  - reflexivity.
  - rewrite IH, (IH ([] ++ _)), app_assoc. reflexivity.
Qed.

Lemma bytes_loop_bytes clean :
  (String.length clean mod 2 = 0)%nat ->
  (length (bytes_loop clean []) = String.length clean / 2)%nat /\
  Forall is_byte (bytes_loop clean []).
Proof.
  induction clean as [|c|c1 c2 rest IH] using string_pair_ind; intros Heven.
  - split; [reflexivity | constructor].
  - discriminate.
  - cbn [String.length] in Heven.
    change (S (S (String.length rest))) with (1 * 2 + String.length rest)%nat in Heven.
    rewrite Nat.add_comm, Nat.Div0.mod_add in Heven.
    destruct (IH Heven) as [Hlen Hbytes].
    cbn [bytes_loop]. rewrite bytes_loop_appends. cbn [app length String.length].
    split.
    + rewrite Hlen.
      change (S (S (String.length rest))) with (1 * 2 + String.length rest)%nat.
      rewrite Nat.div_add_l by lia. reflexivity.
    + constructor; [|exact Hbytes].
      unfold is_byte, to_uchar. apply Z.mod_pos_bound. lia.
Qed.

(** [hex_string_to_byte_vector], in one piece. *)
Lemma hex_string_to_byte_vector_outcome hex_string :
  hex_string_to_byte_vector hex_string =
    if all_chars accepted hex_string
    then if (String.length (without_spaces hex_string) mod 2 =? 0)%nat
         then returned (bytes_loop (without_spaces hex_string) [])
         else invalid_argument "hex string must have even length"
    else invalid_argument "invalid character in hex string".
Proof.
  unfold hex_string_to_byte_vector. rewrite clean_loop_outcome.
  destruct (all_chars accepted hex_string); [|reflexivity].
  change ("" +:+ without_spaces hex_string) with (without_spaces hex_string).
  destruct (String.length (without_spaces hex_string) mod 2 =? 0)%nat; reflexivity.
Qed.

(** White space does not count, wherever it stands: between two bytes or
    between the two digits of a byte. *)
Theorem white_space_is_skipped c s1 s2 :
  isspace c = true ->
  hex_string_to_byte_vector (s1 +:+ String c s2) =
  hex_string_to_byte_vector (s1 +:+ s2).
Proof.
  intros Hc. rewrite !hex_string_to_byte_vector_outcome.
  rewrite !all_chars_append, !without_spaces_append.
  cbn [all_chars without_spaces]. unfold accepted at 2. rewrite Hc. reflexivity.
Qed.

Lemma white_space_is_skipped_witness :
  hex_string_to_byte_vector "d e ad" = hex_string_to_byte_vector "de ad".
Proof. apply (white_space_is_skipped " " "d" "e ad"). reflexivity. Defined.

(** [hex_string_to_byte_vector] throws for a character that is neither
    white space nor a hex digit, whatever else the text holds; with such
    characters absent it throws for an odd number of digits, and returns
    half as many bytes as there are digits for an even number. *)
Theorem hex_string_to_byte_vector_cases hex_string :
  (all_chars accepted hex_string = false ->
   hex_string_to_byte_vector hex_string =
     invalid_argument "invalid character in hex string") /\
  (all_chars accepted hex_string = true ->
   Nat.odd (String.length (without_spaces hex_string)) = true ->
   hex_string_to_byte_vector hex_string =
     invalid_argument "hex string must have even length") /\
  (all_chars accepted hex_string = true ->
   Nat.even (String.length (without_spaces hex_string)) = true ->
   exists bytes,
     hex_string_to_byte_vector hex_string = returned bytes /\
     (2 * length bytes = String.length (without_spaces hex_string))%nat /\
     Forall is_byte bytes).
Proof.
  rewrite hex_string_to_byte_vector_outcome.
  set (digits := without_spaces hex_string).
  repeat apply conj.
  - intros ->. reflexivity.
  - intros -> Hodd. apply Nat.odd_spec in Hodd as [k Hk]. rewrite Hk.
    replace (2 * k + 1)%nat with (1 + k * 2)%nat by lia.
    rewrite Nat.Div0.mod_add. reflexivity.
  - intros -> Heven. apply Nat.even_spec in Heven as [k Hk].
    assert (Hmod : (String.length digits mod 2 = 0)%nat).
    { rewrite Hk, Nat.mul_comm. apply Nat.Div0.mod_mul. }
    rewrite Hmod. cbn [Nat.eqb].
    destruct (bytes_loop_bytes digits Hmod) as [Hlen Hbytes].
    eexists. split; [reflexivity|]. split; [|exact Hbytes].
    rewrite Hlen. symmetry. apply Nat.Div0.div_exact. exact Hmod.
Qed.

(** ** From bytes to text and back *)

Lemma make_buffer_string_from ss buffer :
  foldl (fun ss val => ss +:+ byte_text val) ss buffer =
  ss +:+ make_buffer_string buffer.
Proof.
  unfold make_buffer_string. revert ss.
  induction buffer as [|val buffer IH]; intros ss; cbn [foldl].
  - rewrite append_nil_r. reflexivity.
  - rewrite IH, (IH ("" +:+ _)), append_assoc. reflexivity.
Qed.

Lemma make_buffer_string_cons val buffer :
  make_buffer_string (val :: buffer) = byte_text val +:+ make_buffer_string buffer.
Proof.
  unfold make_buffer_string at 1. cbn [foldl]. apply make_buffer_string_from.
Qed.

Lemma length_make_buffer_string buffer :
  Forall is_byte buffer ->
  String.length (make_buffer_string buffer) = (2 * length buffer)%nat.
Proof.
  induction 1 as [|val buffer Hval _ IH]; [reflexivity|].
  rewrite make_buffer_string_cons, length_append, IH.
  destruct (byte_text_digits val Hval) as (c1 & c2 & -> & _).
  cbn [String.length length]. lia.
Qed.

(** The text has two characters for each byte, all of them among
    [0123456789abcdef]. *)
Theorem make_buffer_string_is_lower_hex buffer :
  Forall is_byte buffer ->
  String.length (make_buffer_string buffer) = (2 * length buffer)%nat /\
  all_chars is_lower_hex (make_buffer_string buffer) = true.
Proof.
  intros Hbuffer. split; [apply length_make_buffer_string, Hbuffer|].
  induction Hbuffer as [|val buffer Hval _ IH]; [reflexivity|].
  rewrite make_buffer_string_cons, all_chars_append, IH, andb_true_r.
  destruct (byte_text_digits val Hval) as (c1 & c2 & -> & H1 & H2 & _).
  cbn [all_chars]. rewrite H1, H2. reflexivity.
Qed.

Lemma hex_round_trip buffer :
  Forall is_byte buffer ->
  hex_string_to_byte_vector (make_buffer_string buffer) = returned buffer.
Proof.
  intros Hbuffer. rewrite hex_string_to_byte_vector_outcome.
  assert (H : all_chars accepted (make_buffer_string buffer) = true /\
              without_spaces (make_buffer_string buffer) = make_buffer_string buffer /\
              bytes_loop (make_buffer_string buffer) [] = buffer).
  { induction Hbuffer as [|val buffer Hval _ (IHall & IHclean & IHbytes)];
      [repeat split; reflexivity|].
    rewrite make_buffer_string_cons.
    destruct (byte_text_digits val Hval) as (c1 & c2 & -> & H1 & H2 & Hvalue).
    apply is_lower_hex_accepted in H1 as [Hs1 Hx1].
    apply is_lower_hex_accepted in H2 as [Hs2 Hx2].
    rewrite !append_cons.
    change ("" +:+ make_buffer_string buffer) with (make_buffer_string buffer).
    cbn [all_chars without_spaces bytes_loop]. unfold accepted at 1 2.
    rewrite Hs1, Hs2, Hx1, Hx2, IHall, IHclean, Hvalue.
    rewrite bytes_loop_appends, IHbytes. repeat split; reflexivity. }
  destruct H as (-> & -> & ->).
  rewrite length_make_buffer_string by exact Hbuffer.
  rewrite Nat.mul_comm, Nat.Div0.mod_mul. reflexivity.
Qed.

(** The bytes read from the text of a vector are the vector; so two vectors
    with the same text are the same. *)
Theorem bytes_of_their_text buffer :
  Forall is_byte buffer ->
  hex_string_to_byte_vector (make_buffer_string buffer) = returned buffer /\
  forall buffer',
    Forall is_byte buffer' ->
    make_buffer_string buffer = make_buffer_string buffer' -> buffer = buffer'.
Proof.
  intros Hbuffer. split; [apply hex_round_trip, Hbuffer|].
  intros buffer' Hbuffer' Htext.
  pose proof (hex_round_trip buffer Hbuffer) as H.
  rewrite Htext, hex_round_trip in H by exact Hbuffer'.
  injection H as ->. reflexivity.
Qed.

(** ** From text to bytes and back *)

Lemma code_range c : 0 <= code c < 256.
Proof. unfold code. pose proof (N_ascii_bounded c). lia. Qed.

Lemma ascii_of_code c : ascii_of_N (Z.to_N (code c)) = c.
Proof. unfold code. rewrite N2Z.id. apply ascii_N_embedding. Qed.

Lemma digits_checked c1 c2 :
  isxdigit c1 = true -> isxdigit c2 = true ->
  byte_text (to_uchar (stoi_16 (String c1 (String c2 "")))) =
  String (lower c1) (String (lower c2) "").
Proof.
  intros H1 H2.
  assert (Hall : forallb (fun n1 => forallb (digits_check n1) (seqZ 0 256))
                         (seqZ 0 256) = true)
    by (vm_compute; reflexivity).
  rewrite forallb_forall in Hall.
  specialize (Hall (code c1)). rewrite forallb_forall in Hall.
  pose proof (code_range c1). pose proof (code_range c2).
  assert (Hcheck : digits_check (code c1) (code c2) = true).
  { apply Hall; apply list_elem_of_In, elem_of_seqZ; lia. }
  unfold digits_check in Hcheck. rewrite !ascii_of_code, H1, H2 in Hcheck.
  apply String.eqb_eq. exact Hcheck.
Qed.

Lemma all_chars_without_spaces s :
  all_chars accepted s = true -> all_chars isxdigit (without_spaces s) = true.
Proof.
  induction s as [|c s IH]; [reflexivity|]. cbn [all_chars without_spaces].
  unfold accepted at 1. intros H. apply andb_prop in H as [Hc Hs].
  destruct (isspace c); [apply IH, Hs|].
  cbn [all_chars]. cbn in Hc. rewrite Hc, IH by exact Hs. reflexivity.
Qed.

Lemma make_buffer_string_bytes_loop clean :
  all_chars isxdigit clean = true -> (String.length clean mod 2 = 0)%nat ->
  make_buffer_string (bytes_loop clean []) = lower_text clean.
Proof.
  induction clean as [|c|c1 c2 rest IH] using string_pair_ind; intros Hall Heven.
  - reflexivity.
  - discriminate.
  - cbn [all_chars] in Hall.
    apply andb_prop in Hall as [H1 Hall]. apply andb_prop in Hall as [H2 Hall].
    cbn [String.length] in Heven.
    change (S (S (String.length rest))) with (1 * 2 + String.length rest)%nat in Heven.
    rewrite Nat.add_comm, Nat.Div0.mod_add in Heven.
    cbn [bytes_loop lower_text]. rewrite bytes_loop_appends. cbn [app].
    rewrite make_buffer_string_cons, digits_checked, IH by assumption.
    reflexivity.
Qed.

(** The text of the bytes read from a text is that text with its white
    space removed and its letters in lower case. *)
Theorem text_of_its_bytes hex_string bytes :
  hex_string_to_byte_vector hex_string = returned bytes ->
  make_buffer_string bytes = lower_text (without_spaces hex_string).
Proof.
  rewrite hex_string_to_byte_vector_outcome.
  destruct (all_chars accepted hex_string) eqn:Hall; [|discriminate].
  destruct (String.length (without_spaces hex_string) mod 2 =? 0)%nat eqn:Heven;
    [|discriminate].
  intros [= <-]. apply Nat.eqb_eq in Heven.
  apply make_buffer_string_bytes_loop; [apply all_chars_without_spaces, Hall | exact Heven].
Qed.

Lemma bytes_de_ad : Forall is_byte [0xde; 0xad].
Proof. repeat constructor; unfold is_byte; lia. Defined.

Lemma hex_string_to_byte_vector_cases_witness :
  hex_string_to_byte_vector "0x12" =
    invalid_argument "invalid character in hex string" /\
  hex_string_to_byte_vector "de a" =
    invalid_argument "hex string must have even length".
Proof.
  split.
  - apply (proj1 (hex_string_to_byte_vector_cases "0x12")). reflexivity.
  - apply (proj1 (proj2 (hex_string_to_byte_vector_cases "de a"))); reflexivity.
Defined.

Lemma make_buffer_string_is_lower_hex_witness :
  String.length (make_buffer_string [0xde; 0xad]) = 4%nat.
Proof. apply (make_buffer_string_is_lower_hex [0xde; 0xad] bytes_de_ad). Defined.

Lemma bytes_of_their_text_witness :
  hex_string_to_byte_vector (make_buffer_string [0xde; 0xad]) = returned [0xde; 0xad].
Proof. apply (bytes_of_their_text [0xde; 0xad] bytes_de_ad). Defined.

Lemma text_of_its_bytes_witness :
  make_buffer_string [0xde; 0xad] = "dead".
Proof.
  apply (text_of_its_bytes "DE AD" [0xde; 0xad]). vm_compute. reflexivity.
Defined.
End UtilsFacts.

(** * The example program *)

Module ExampleFacts.
Import Example.

(** What [serialize] returns: the length of the name in two bytes, the
    name, the age. *)
Lemma serialize_bytes p :
  serialize p =
    Ok (Serializer.big_endian_bytes 2 (to_ushort (vector_size (name p)))
        ++ name p ++ [Z.land (Z.shiftr (age p) 0) 0xff]).
Proof.
  unfold serialize, Serializer.push_16_big_endian, Serializer.push_byte,
    mbind, M_bind, bind.
  rewrite SerializerFacts.check_size_pass by reflexivity.
  rewrite SerializerFacts.push_big_endian_appends.
  rewrite SerializerFacts.push_buffer_appends.
  rewrite SerializerFacts.check_size_pass by reflexivity.
  rewrite SerializerFacts.push_little_endian_appends.
  cbn. rewrite <- app_assoc. reflexivity.
Qed.

(** What [from_bytes] reads from a buffer made of a two-byte length, at
    least that many bytes, and one more. *)
Lemma from_bytes_reads length_value content rest x :
  Forall is_byte (content ++ [x]) ->
  vector_size content = length_value mod 2 ^ 16 ->
  let buffer := Serializer.big_endian_bytes 2 length_value ++ content ++ x :: rest in
  vector_size buffer <= max_size ->
  from_bytes buffer = Ok (mk_Person content x).
Proof.
  intros Hbytes Hlength buffer Hfits.
  pose proof (vector_size_nonneg content) as Hcontent.
  pose proof (vector_size_nonneg rest) as Hrest.
  assert (Hsize : vector_size buffer = 2 + vector_size content + 1 + vector_size rest).
  { unfold buffer. rewrite !vector_size_app.
    change (vector_size (x :: rest)) with (vector_size ([x] ++ rest)).
    rewrite vector_size_app.
    unfold vector_size at 1. rewrite SerializerFacts.length_big_endian_bytes.
    change (vector_size [x]) with 1. lia. }
  destruct (RoundTripFacts.constructor_inside buffer) as [Hover0 Hinv0].
  set (d0 := Deserializer.Deserializer buffer) in *.
  assert (Hrem0 : Deserializer.remaining d0 = vector_size buffer) by reflexivity.
  assert (Hcur0 : Deserializer.cursor d0 = 0) by reflexivity.
  destruct (DeserializerFacts.advanced_invariant buffer d0 Hover0 Hinv0 2)
    as [Hover1 Hinv1]; [lia|].
  set (d1 := Deserializer.advanced d0 2) in *.
  assert (Hrem1 : Deserializer.remaining d1 = vector_size content + 1 + vector_size rest).
  { unfold d1, Deserializer.advanced. cbn [Deserializer.remaining]. lia. }
  destruct (DeserializerFacts.advanced_invariant buffer d1 Hover1 Hinv1
              (vector_size content)) as [Hover2 Hinv2]; [lia|].
  set (d2 := Deserializer.advanced d1 (vector_size content)) in *.
  assert (Hrem2 : Deserializer.remaining d2 = 1 + vector_size rest).
  { unfold d2, Deserializer.advanced. cbn [Deserializer.remaining]. lia. }
  assert (Hdrop0 : drop (Z.to_nat (Deserializer.cursor d0)) (Deserializer.buffer d0)
                   = Serializer.big_endian_bytes 2 length_value ++ content ++ x :: rest)
    by reflexivity.
  assert (Hdrop1 : drop (Z.to_nat (Deserializer.cursor d1)) (Deserializer.buffer d1)
                   = content ++ x :: rest).
  { change (Deserializer.cursor d1) with (0 + 2).
    change (Deserializer.buffer d1) with buffer. unfold buffer.
    rewrite drop_app_length'
      by (rewrite SerializerFacts.length_big_endian_bytes; reflexivity).
    reflexivity. }
  assert (Hdrop2 : drop (Z.to_nat (Deserializer.cursor d2)) (Deserializer.buffer d2)
                   = x :: rest).
  { change (Deserializer.cursor d2) with (0 + 2 + vector_size content).
    change (Deserializer.buffer d2) with buffer.
    replace (Z.to_nat (0 + 2 + vector_size content))
      with (2 + length content)%nat by (unfold vector_size; lia).
    rewrite <- drop_drop. unfold buffer.
    rewrite drop_app_length'
      by (rewrite SerializerFacts.length_big_endian_bytes; reflexivity).
    rewrite drop_app_length. reflexivity. }
  unfold from_bytes, fill_from_bytes, Deserializer.get_16_big_endian,
    Deserializer.get_byte, mbind, M_bind, bind, ret.
  fold d0.
  rewrite (DeserializerFacts.get_big_endian_inside buffer Hfits d0 Hover0 Hinv0)
    by lia.
  fold d1. rewrite Hdrop0.
  rewrite take_app_length' by (rewrite SerializerFacts.length_big_endian_bytes; reflexivity).
  rewrite SerializerFacts.decode_big_endian_bytes by lia.
  rewrite Z.lor_0_l. change (8 * Z.of_nat 2) with 16.
  unfold to_ushort. rewrite Z.mod_mod, <- Hlength by lia.
  rewrite (DeserializerFacts.get_buffer_inside buffer Hfits d1 Hover1 Hinv1) by lia.
  fold d2.
  rewrite (DeserializerFacts.get_big_endian_inside buffer Hfits d2 Hover2 Hinv2)
    by lia.
  rewrite Hdrop1, Hdrop2.
  rewrite take_app_length' by (unfold vector_size; lia).
  change (take (Z.to_nat 1) (x :: rest)) with [x].
  cbn [fst Deserializer.decode_big_endian length].
  apply Forall_app in Hbytes as [_ Hx]. inversion Hx as [|? ? Hxb _]; subst.
  unfold is_byte in Hxb.
  rewrite Z.lor_0_l. unfold shl64, to_ull, to_uchar.
  change (8 * Z.of_nat 0) with 0. rewrite Z.shiftl_0_r.
  rewrite (Z.mod_small x (2 ^ 64)) by lia.
  rewrite Z.mod_small by lia. reflexivity.
Qed.

(** A Person whose name has fewer than 65536 characters comes back from the
    bytes [serialize] returns, and from the hex text [to_string] returns. *)
Theorem person_round_trip p :
  vector_size (name p) < 2 ^ 16 ->
  Forall is_byte (name p) -> is_byte (age p) ->
  exists bytes,
    serialize p = Ok bytes /\
    vector_size bytes = 2 + vector_size (name p) + 1 /\
    from_bytes bytes = Ok p /\
    to_string p = Ok (Utils.make_buffer_string bytes) /\
    Utils.hex_string_to_byte_vector (Utils.make_buffer_string bytes)
      = Utils.returned bytes.
Proof.
  intros Hlength Hname Hage.
  pose proof (vector_size_nonneg (name p)) as Hnonneg.
  assert (Hlast : Z.land (Z.shiftr (age p) 0) 0xff = age p).
  { rewrite land_0xff, Z.shiftr_0_r. apply Z.mod_small. exact Hage. }
  eexists. split; [apply serialize_bytes|]. rewrite Hlast.
  assert (Hsize : vector_size
                    (Serializer.big_endian_bytes 2 (to_ushort (vector_size (name p)))
                     ++ name p ++ [age p]) = 2 + vector_size (name p) + 1).
  { rewrite !vector_size_app. unfold vector_size at 1.
    rewrite SerializerFacts.length_big_endian_bytes.
    change (vector_size [age p]) with 1. lia. }
  split; [exact Hsize|]. split; [|split].
  - destruct p as [n a]. cbn [name age] in *.
    apply (from_bytes_reads _ n [] a).
    + apply Forall_app. split; [exact Hname | constructor; [exact Hage | constructor]].
    + unfold to_ushort. rewrite Z.mod_mod, Z.mod_small by lia. reflexivity.
    + rewrite Hsize. unfold max_size. lia.
  - unfold to_string. rewrite serialize_bytes, Hlast. reflexivity.
  - apply UtilsFacts.hex_round_trip.
    apply Forall_app. split; [apply ValueFacts.big_endian_bytes_are_bytes|].
    apply Forall_app. split; [exact Hname | constructor; [exact Hage | constructor]].
Qed.

(** A name of 65536 characters or more does not come back: its length is
    written in two bytes, so that the name read is cut to the length modulo
    65536, and the age read is the character of the name that follows. *)
Theorem long_name_is_cut p :
  2 ^ 16 <= vector_size (name p) -> vector_size (name p) + 3 <= max_size ->
  Forall is_byte (name p) ->
  exists bytes c,
    serialize p = Ok bytes /\
    name p !! Z.to_nat (vector_size (name p) mod 2 ^ 16) = Some c /\
    from_bytes bytes =
      Ok (mk_Person (take (Z.to_nat (vector_size (name p) mod 2 ^ 16)) (name p)) c).
Proof.
  intros Hlong Hfits Hname.
  set (k := vector_size (name p) mod 2 ^ 16).
  assert (Hk : 0 <= k < 2 ^ 16) by (apply Z.mod_pos_bound; lia).
  destruct (lookup_lt_is_Some_2 (name p) (Z.to_nat k)) as [c Hc];
    [unfold vector_size in Hlong; lia|].
  eexists. exists c. split; [apply serialize_bytes|]. split; [exact Hc|].
  set (length_value := to_ushort (vector_size (name p))).
  assert (Hsplit : name p ++ [Z.land (Z.shiftr (age p) 0) 0xff] =
                   take (Z.to_nat k) (name p)
                   ++ c :: (drop (S (Z.to_nat k)) (name p)
                            ++ [Z.land (Z.shiftr (age p) 0) 0xff])).
  { rewrite app_comm_cons, app_assoc, <- (drop_S _ _ _ Hc), take_drop. reflexivity. }
  rewrite Hsplit.
  assert (Htake : vector_size (take (Z.to_nat k) (name p)) = k).
  { unfold vector_size in *. rewrite length_take. lia. }
  apply from_bytes_reads.
  - apply Forall_app. split; [apply Forall_take, Hname|].
    constructor; [|constructor]. rewrite Forall_forall in Hname.
    apply Hname, list_elem_of_lookup. eauto.
  - rewrite Htake. unfold length_value, to_ushort. rewrite Z.mod_mod by lia. reflexivity.
  - rewrite <- Hsplit, !vector_size_app. unfold vector_size at 1.
    rewrite SerializerFacts.length_big_endian_bytes.
    change (vector_size [_]) with 1. lia.
Qed.

(** Alice, 30, of the example program. *)
Lemma person_round_trip_witness :
  let alice := mk_Person [65; 108; 105; 99; 101] 30 in
  exists bytes, serialize alice = Ok bytes /\ from_bytes bytes = Ok alice.
Proof.
  destruct (person_round_trip (mk_Person [65; 108; 105; 99; 101] 30))
    as (bytes & Hserialize & _ & Hfrom & _).
  - vm_compute. reflexivity.
  - repeat constructor; unfold is_byte; lia.
  - unfold is_byte. cbn. lia.
  - exists bytes. split; assumption.
Defined.

Lemma long_name_is_cut_witness :
  let p := mk_Person (replicate (Z.to_nat (2 ^ 16)) 65) 30 in
  exists bytes, serialize p = Ok bytes /\ from_bytes bytes = Ok (mk_Person [] 65).
Proof.
  set (p := mk_Person (replicate (Z.to_nat (2 ^ 16)) 65) 30).
  assert (Hsize : vector_size (name p) = 2 ^ 16).
  { unfold vector_size, p. cbn [name]. rewrite length_replicate. lia. }
  destruct (long_name_is_cut p) as (bytes & c & Hserialize & Hc & Hfrom).
  - lia.
  - rewrite Hsize. unfold max_size. lia.
  - apply Forall_replicate. unfold is_byte. lia.
  - exists bytes. split; [exact Hserialize|].
    rewrite Hsize in Hc, Hfrom. rewrite Z.mod_same in Hc, Hfrom by lia.
    change (Z.to_nat 0) with 0%nat in Hc, Hfrom.
    unfold p in Hc. cbn [name] in Hc.
    assert (c = 65).
    { apply lookup_replicate in Hc as [-> _]. reflexivity. }
    subst c. exact Hfrom.
Defined.
End ExampleFacts.
